(** * The gradient energy tensor of VIGRA, embedded and verified

    Source: [include/vigra/gradient_energy_tensor.hxx].

    The function [gradientEnergyTensor] filters a scalar image with a
    derivative kernel and a smoothing kernel (seven calls of [convolveImage]
    and one of [combineTwoImages]) and then combines the filtered images
    pixel by pixel into the three bands t11, t12, t22 of the destination.

    The embedding follows the source line by line.  The destination image is
    mutable state shared with the caller, so the code runs in a small state
    and error monad; exceptions leave the state as it was when they were
    raised, as in C++. *)

From Stdlib Require Import ZArith QArith Lia.
From stdpp Require Import base strings list.

Local Open Scope Z_scope.

(** ** Numeric type of the temporaries

    [NumericTraits<SrcAccessor::value_type>::RealPromote] is a template
    parameter of the source; the code uses its default constructor (zero),
    [+], binary and unary [-], [*] and the literal [0.5]. *)

Class RealPromote (T : Type) : Type := {
  r_zero : T;
  r_add : T -> T -> T;
  r_sub : T -> T -> T;
  r_mul : T -> T -> T;
  r_neg : T -> T;
  r_half : T
}.

Declare Scope tmp_scope.
Delimit Scope tmp_scope with tmp.
Notation "a + b" := (r_add a b) : tmp_scope.
Notation "a - b" := (r_sub a b) : tmp_scope.
Notation "a * b" := (r_mul a b) : tmp_scope.
Notation "- a" := (r_neg a) : tmp_scope.

(** [sq] of [vigra/mathutil.hxx]. *)
Definition sq {T} `{RealPromote T} (t : T) : T := (t * t)%tmp.

(** The facts about zero that the zero-input and constant-input properties
    rest on; they hold in the real numbers. *)
Class RealZeroLaws (T : Type) `{RealPromote T} : Prop := {
  r_add_0_0 : (r_zero + r_zero)%tmp = r_zero;
  r_sub_0_0 : (r_zero - r_zero)%tmp = r_zero;
  r_neg_0 : (- r_zero)%tmp = r_zero;
  r_mul_0_0 : (r_zero * r_zero)%tmp = r_zero;
  r_mul_half_0 : (r_half * r_zero)%tmp = r_zero
}.

(** ** Data model *)

(** A two-dimensional image iterator: the members [x] and [y] of
    [SrcIterator] and [DestIterator].  C++ [int] arithmetic on them is
    written in [Z]; signed overflow is undefined in C++ and images of that
    extent do not exist. *)
Record ImageIterator : Type := { pos_x : Z; pos_y : Z }.

(** [++i.x] and [++i.y]. *)
Definition inc_x (i : ImageIterator) : ImageIterator :=
  {| pos_x := pos_x i + 1; pos_y := pos_y i |}.
Definition inc_y (i : ImageIterator) : ImageIterator :=
  {| pos_x := pos_x i; pos_y := pos_y i + 1 |}.

(** [triple] of [vigra/utilities.hxx] and [std::pair], the argument
    objects of the second overload. *)
Record triple (A B C : Type) : Type :=
  mk_triple { first3 : A; second3 : B; third3 : C }.
Arguments mk_triple {A B C} _ _ _.
Arguments first3 {A B C} _.
Arguments second3 {A B C} _.
Arguments third3 {A B C} _.

Record std_pair (A B : Type) : Type := make_pair { first : A; second : B }.
Arguments make_pair {A B} _ _.
Arguments first {A B} _.
Arguments second {A B} _.

(** The message of the precondition of [gradientEnergyTensor]. *)
Definition bands_message : string :=
  "gradientEnergyTensor(): output image must have 3 bands.".

Section Embedding.

Context {T : Type} `{RealPromote T}.

(** Modelled from the spec: [BasicImage<TmpType>] of [vigra/basicimage.hxx],
    which is not among the sources: a dense two-dimensional array of
    [width] x [height] values, stored row by row; [begin()] is offset 0 of
    [data] and [++] on a scan-order iterator moves to the next offset. *)
Record BasicImage : Type := { width : Z; height : Z; data : list T }.

(** Modelled from the spec: the constructor [BasicImage(w, h)], which
    allocates [w * h] pixels holding [TmpType()]; an extent that is not
    positive has no pixels. *)
Definition BasicImage_new (w h : Z) : BasicImage :=
  {| width := w; height := h;
     data := replicate (Z.to_nat w * Z.to_nat h) r_zero |}.

(** The pixel at column [col] and row [row] of an image, when the column
    is one of the image. *)
Definition pixel (img : BasicImage) (col row : nat) : option T :=
  if decide (col < Z.to_nat (width img))%nat
  then data img !! (row * Z.to_nat (width img) + col)%nat
  else None.

(** The source image as seen through [SrcAccessor]: the value, promoted to
    [TmpType], that the accessor reads at an iterator position. *)
Definition SrcAccessor : Type := ImageIterator -> T.

(** [srcIterRange(supperleft, slowerright, src)]: the pixels of the region,
    row by row, as the convolution sees them. *)
Definition srcIterRange (supperleft slowerright : ImageIterator)
    (src : SrcAccessor) : BasicImage :=
  let w := pos_x slowerright - pos_x supperleft in
  let h := pos_y slowerright - pos_y supperleft in
  {| width := w; height := h;
     data :=
       flat_map
         (fun row : nat =>
            map (fun col : nat =>
                   src {| pos_x := pos_x supperleft + Z.of_nat col;
                          pos_y := pos_y supperleft + Z.of_nat row |})
                (seq 0 (Z.to_nat w)))
         (seq 0 (Z.to_nat h)) |}.

(** The destination as seen through [DestAccessor]: a number of bands,
    the same at every pixel, and the component stored at a position and
    band index.  The positions are those of the caller's storage; the
    caller provides the window that the function writes.  The components
    are kept in [TmpType]: the conversion to the component type of the
    destination image is that of the accessor and is not modelled. *)
Record DestAccessor : Type :=
  { numBands : nat; component : Z -> Z -> nat -> T }.

(** Two destinations hold the same image. *)
Definition same_image (d1 d2 : DestAccessor) : Prop :=
  numBands d1 = numBands d2 /\
  forall px py idx, component d1 px py idx = component d2 px py idx.

(** The window of [w] x [h] pixels whose upper left corner is [ul]. *)
Definition in_window (ul : ImageIterator) (w h : Z) (px py : Z) : Prop :=
  pos_x ul <= px < pos_x ul + w /\ pos_y ul <= py < pos_y ul + h.

(** ** Errors, state and the monad *)

Variable Kernel1D : Type.

(** What the collaborators raise; it is passed on unchanged. *)
Variable CollaboratorError : Type.

Inductive Error : Type :=
  | PreconditionFailure (msg : string)
  | Propagated (e : CollaboratorError)
  | InvalidAccess.

(** The calls to the two image primitives, in the order they are made. *)
Inductive Call : Type :=
  | CallConvolveImage (kx ky : Kernel1D)
  | CallCombineTwoImages.

Record World : Type := { dest : DestAccessor; calls : list Call }.

Inductive Outcome (A : Type) : Type :=
  | Done (a : A)
  | Raised (e : Error).
Arguments Done {A} _.
Arguments Raised {A} _.

Definition M (A : Type) : Type := World -> Outcome A * World.

Definition ret {A} (a : A) : M A := fun s => (Done a, s).

Definition bind {A B} (m : M A) (k : A -> M B) : M B :=
  fun s =>
    match m s with
    | (Done a, s') => k a s'
    | (Raised e, s') => (Raised e, s')
    end.

Definition raise {A} (e : Error) : M A := fun s => (Raised e, s).

Definition record_call (c : Call) : M unit :=
  fun s => (Done tt, {| dest := dest s; calls := calls s ++ [c] |}).

Notation "a <- m ;; k" := (bind m (fun a => k))
  (at level 100, m at next level, right associativity).
Notation "m ;;; k" := (bind m (fun _ => k))
  (at level 100, right associativity).

(** ** Collaborators *)

(** Modelled from the spec: the macro [vigra_precondition] of
    [vigra/error.hxx], which is not among the sources: it raises the
    precondition failure with the given message when the condition is
    false. *)
Definition vigra_precondition (cond : bool) (msg : string) : M unit :=
  if cond then ret tt else raise (PreconditionFailure msg).

(** [convolveImage(src, destImage(d), kx, ky)] of [vigra/convolution.hxx],
    which is not among the sources: it filters [src] with [kx] along x and
    [ky] along y and writes the result through the iterator of [d]; it
    returns the image [d] as written, or the error it raised.  Border
    treatment and the conditions under which it fails are its own. *)
Variable convolveImage :
  BasicImage -> BasicImage -> Kernel1D -> Kernel1D ->
  CollaboratorError + BasicImage.

Definition call_convolveImage (src d : BasicImage) (kx ky : Kernel1D)
    : M BasicImage :=
  record_call (CallConvolveImage kx ky) ;;;
  match convolveImage src d kx ky with
  | inr d' => ret d'
  | inl e => raise (Propagated e)
  end.

(** Modelled from the spec: [combineTwoImages(src1, src2, destImage(d), f)]
    of [vigra/combineimages.hxx], which is not among the sources: [f] is
    applied pixel by pixel to two images of the same size and the result is
    written through the iterator of [d], which keeps its extent; a pixel of
    [d] for which a source pixel is missing is not written. *)
Definition combineTwoImages (src1 src2 d : BasicImage) (f : T -> T -> T)
    : BasicImage :=
  {| width := width d; height := height d;
     data :=
       imap (fun (i : nat) (old : T) =>
               match data src1 !! i, data src2 !! i with
               | Some a, Some b => f a b
               | _, _ => old
               end)
            (data d) |}.

Definition call_combineTwoImages (src1 src2 d : BasicImage)
    (f : T -> T -> T) : M BasicImage :=
  record_call CallCombineTwoImages ;;;
  ret (combineTwoImages src1 src2 d f).

(** [dest.size(i)]: the number of bands of the destination pixel. *)
Definition accessor_size (i : ImageIterator) : M nat :=
  fun s => (Done (numBands (dest s)), s).

(** The destination after band [idx] of the pixel at [i] has been
    assigned [v]. *)
Definition write_component (v : T) (i : ImageIterator) (idx : nat)
    (d : DestAccessor) : DestAccessor :=
  {| numBands := numBands d;
     component := fun px py k =>
       if decide (px = pos_x i /\ py = pos_y i /\ k = idx) then v
       else component d px py k |}.

(** [dest.setComponent(v, i, idx)].  A band index outside the pixel is
    undefined behaviour in C++; here it is an error. *)
Definition setComponent (v : T) (i : ImageIterator) (idx : nat) : M unit :=
  fun s =>
    if (idx <? numBands (dest s))%nat
    then (Done tt, {| dest := write_component v i idx (dest s);
                      calls := calls s |})
    else (Raised InvalidAccess, s).

(** [*it] for a scan-order iterator [it] at offset [off] of [img].  An
    offset outside the image is undefined behaviour in C++; here it is an
    error. *)
Definition deref (img : BasicImage) (off : nat) : M T :=
  match data img !! off with
  | Some v => ret v
  | None => raise InvalidAccess
  end.

(** ** The derivative cascade (source lines 122 to 141) *)

Record Fields : Type := {
  gx : BasicImage; gy : BasicImage;
  gxx : BasicImage; gxy : BasicImage; gyy : BasicImage;
  laplace : BasicImage; gx3 : BasicImage; gy3 : BasicImage
}.

Definition derivativeCascade (srcRange : BasicImage) (w h : Z)
    (derivKernel smoothKernel : Kernel1D) : M Fields :=
  let gx := BasicImage_new w h in
  let gy := BasicImage_new w h in
  let gxx := BasicImage_new w h in
  let gxy := BasicImage_new w h in
  let gyy := BasicImage_new w h in
  let laplace := BasicImage_new w h in
  let gx3 := BasicImage_new w h in
  let gy3 := BasicImage_new w h in
  gx <- call_convolveImage srcRange gx derivKernel smoothKernel ;;
  gy <- call_convolveImage srcRange gy smoothKernel derivKernel ;;
  gxx <- call_convolveImage gx gxx derivKernel smoothKernel ;;
  gxy <- call_convolveImage gx gxy smoothKernel derivKernel ;;
  gyy <- call_convolveImage gy gyy smoothKernel derivKernel ;;
  laplace <- call_combineTwoImages gxx gyy laplace r_add ;;
  gx3 <- call_convolveImage laplace gx3 derivKernel smoothKernel ;;
  gy3 <- call_convolveImage laplace gy3 smoothKernel derivKernel ;;
  ret {| gx := gx; gy := gy; gxx := gxx; gxy := gxy; gyy := gyy;
         laplace := laplace; gx3 := gx3; gy3 := gy3 |}.

(** ** The tensor assembly (source lines 142 to 158) *)

(** The three tensor components of one pixel. *)
Definition t11 (gx gxx gxy gx3 : T) : T :=
  (sq gxx + sq gxy - gx * gx3)%tmp.
Definition t12 (gx gy gxx gxy gyy gx3 gy3 : T) : T :=
  (- gxy * (gxx + gyy) + r_half * (gx * gy3 + gy * gx3))%tmp.
Definition t22 (gy gxy gyy gy3 : T) : T :=
  (sq gxy + sq gyy - gy * gy3)%tmp.

(** The body of the inner loop: [d] is the row iterator of the destination
    and [off] the common offset of the seven scan-order iterators [gxi],
    [gyi], [gxxi], [gxyi], [gyyi], [gx3i], [gy3i], which start at [begin()]
    and are advanced together.  Each iterator is dereferenced where the
    source first does so; the later statements of the source dereference
    the same iterators again and read the same values. *)
Definition assemble_pixel (F : Fields) (d : ImageIterator) (off : nat)
    : M unit :=
  vgxx <- deref (gxx F) off ;; vgxy <- deref (gxy F) off ;;
  vgx <- deref (gx F) off ;; vgx3 <- deref (gx3 F) off ;;
  setComponent (t11 vgx vgxx vgxy vgx3) d 0 ;;;
  vgyy <- deref (gyy F) off ;; vgy3 <- deref (gy3 F) off ;;
  vgy <- deref (gy F) off ;;
  setComponent (t12 vgx vgy vgxx vgxy vgyy vgx3 vgy3) d 1 ;;;
  setComponent (t22 vgy vgxy vgyy vgy3) d 2.

(** [for(int x = 0; x < w; ++x, ++d, ++gxi, ...)] with [todo] iterations
    left; the result is the offset reached. *)
Fixpoint row_loop (F : Fields) (todo : nat) (d : ImageIterator) (off : nat)
    : M nat :=
  match todo with
  | O => ret off
  | S todo' =>
      assemble_pixel F d off ;;;
      row_loop F todo' (inc_x d) (S off)
  end.

(** [for(int y = 0; y < h; ++y, ++dupperleft.y)] with [todo] iterations
    left. *)
Fixpoint image_loop (F : Fields) (w : Z) (todo : nat)
    (dupperleft : ImageIterator) (off : nat) : M nat :=
  match todo with
  | O => ret off
  | S todo' =>
      off' <- row_loop F (Z.to_nat w) dupperleft off ;;
      image_loop F w todo' (inc_y dupperleft) off'
  end.

Definition tensorAssembly (F : Fields) (w h : Z)
    (dupperleft : ImageIterator) : M unit :=
  image_loop F w (Z.to_nat h) dupperleft 0%nat ;;; ret tt.

(** ** [gradientEnergyTensor], explicit arguments (source lines 109 to 159)

    The destination accessor [dest] and the image it gives access to are the
    initial state; the result is the outcome with the final state. *)
Definition gradientEnergyTensor (supperleft slowerright : ImageIterator)
    (src : SrcAccessor) (dupperleft : ImageIterator) (dest : DestAccessor)
    (derivKernel smoothKernel : Kernel1D) : Outcome unit * World :=
  (bands <- accessor_size dupperleft ;;
   vigra_precondition (bands =? 3)%nat
     "gradientEnergyTensor(): output image must have 3 bands." ;;;
   let w := pos_x slowerright - pos_x supperleft in
   let h := pos_y slowerright - pos_y supperleft in
   F <- derivativeCascade (srcIterRange supperleft slowerright src) w h
          derivKernel smoothKernel ;;
   tensorAssembly F w h dupperleft)
  {| dest := dest; calls := [] |}.

(** ** [gradientEnergyTensor], argument objects (source lines 164 to 170) *)
Definition gradientEnergyTensor_args
    (src : triple ImageIterator ImageIterator SrcAccessor)
    (dest : std_pair ImageIterator DestAccessor)
    (derivKernel smoothKernel : Kernel1D) : Outcome unit * World :=
  gradientEnergyTensor (first3 src) (second3 src) (third3 src)
                       (first dest) (second dest) derivKernel smoothKernel.

(** On an empty region the call returns normally and the destination is as
    it was.  This is not so for every convolution; see C10. *)
Definition empty_region_returns (supperleft slowerright : ImageIterator)
    (src : SrcAccessor) (dupperleft : ImageIterator) (d : DestAccessor)
    (derivKernel smoothKernel : Kernel1D) : Prop :=
  pos_x slowerright <= pos_x supperleft \/
  pos_y slowerright <= pos_y supperleft ->
  numBands d = 3%nat ->
  let r := gradientEnergyTensor supperleft slowerright src dupperleft d
             derivKernel smoothKernel in
  fst r = Done tt /\
  forall px py idx, component (dest (snd r)) px py idx = component d px py idx.

(** ** Extents *)

(** An image has [w] x [h] pixels. *)
Definition has_extent (w h : Z) (img : BasicImage) : Prop :=
  width img = w /\ height img = h /\
  length (data img) = (Z.to_nat w * Z.to_nat h)%nat.

(** Writing through the iterator of [d] gave [d'], of the same extent. *)
Definition same_extent (d d' : BasicImage) : Prop :=
  width d' = width d /\ height d' = height d /\
  length (data d') = length (data d).

Definition fields_have_extent (w h : Z) (F : Fields) : Prop :=
  has_extent w h (gx F) /\ has_extent w h (gy F) /\
  has_extent w h (gxx F) /\ has_extent w h (gxy F) /\
  has_extent w h (gyy F) /\ has_extent w h (laplace F) /\
  has_extent w h (gx3 F) /\ has_extent w h (gy3 F).

(** The contract of [convolveImage] that the extents rest on: the image
    written through [destImage(d)] has the extent of [d]. *)
Definition keeps_extent : Prop :=
  forall src d kx ky d', convolveImage src d kx ky = inr d' -> same_extent d d'.

(** The image of [w] x [h] pixels that all hold [c]; for [c] zero it is
    [BasicImage_new w h]. *)
Definition constant_image (w h : Z) (c : T) : BasicImage :=
  {| width := w; height := h;
     data := replicate (Z.to_nat w * Z.to_nat h) c |}.

(** Filtering the constant image of value [c] with [kx] along x and [ky]
    along y is accepted and gives zero everywhere. *)
Definition annihilates_constant (w h : Z) (c : T) (kx ky : Kernel1D) : Prop :=
  convolveImage (constant_image w h c) (BasicImage_new w h) kx ky
  = inr (BasicImage_new w h).

(** The eight steps of the cascade in the words of the specification:
    which image each field is filtered from, with which kernel along x and
    which along y, and the point-wise sum. *)
Definition spec_cascade (input : BasicImage) (w h : Z) (D S : Kernel1D)
    (F : Fields) : Prop :=
  convolveImage input (BasicImage_new w h) D S = inr (gx F) /\
  convolveImage input (BasicImage_new w h) S D = inr (gy F) /\
  convolveImage (gx F) (BasicImage_new w h) D S = inr (gxx F) /\
  convolveImage (gx F) (BasicImage_new w h) S D = inr (gxy F) /\
  convolveImage (gy F) (BasicImage_new w h) S D = inr (gyy F) /\
  laplace F = combineTwoImages (gxx F) (gyy F) (BasicImage_new w h) r_add /\
  convolveImage (laplace F) (BasicImage_new w h) D S = inr (gx3 F) /\
  convolveImage (laplace F) (BasicImage_new w h) S D = inr (gy3 F).

(** The calls of the cascade, in order. *)
Definition cascade_calls (D S : Kernel1D) : list Call :=
  [CallConvolveImage D S; CallConvolveImage S D; CallConvolveImage D S;
   CallConvolveImage S D; CallConvolveImage S D; CallCombineTwoImages;
   CallConvolveImage D S; CallConvolveImage S D].

(** The fields when every one of them is zero everywhere. *)
Definition zero_fields (w h : Z) : Fields :=
  let z := constant_image w h r_zero in
  {| gx := z; gy := z; gxx := z; gxy := z; gyy := z; laplace := z;
     gx3 := z; gy3 := z |}.

(** ** What the assembly reads and writes *)

(** The values that the seven iterators point to at offset [off]. *)
Record Samples : Type := {
  s_gx : T; s_gy : T; s_gxx : T; s_gxy : T; s_gyy : T; s_gx3 : T; s_gy3 : T
}.

Definition samples (F : Fields) (off : nat) : option Samples :=
  match data (gx F) !! off, data (gy F) !! off, data (gxx F) !! off,
        data (gxy F) !! off, data (gyy F) !! off, data (gx3 F) !! off,
        data (gy3 F) !! off with
  | Some vgx, Some vgy, Some vgxx, Some vgxy, Some vgyy, Some vgx3, Some vgy3 =>
      Some {| s_gx := vgx; s_gy := vgy; s_gxx := vgxx; s_gxy := vgxy;
              s_gyy := vgyy; s_gx3 := vgx3; s_gy3 := vgy3 |}
  | _, _, _, _, _, _, _ => None
  end.

(** The value assigned to band [idx] from the samples [v]. *)
Definition tensor (v : Samples) (idx : nat) : T :=
  match idx with
  | 0%nat => t11 (s_gx v) (s_gxx v) (s_gxy v) (s_gx3 v)
  | 1%nat => t12 (s_gx v) (s_gy v) (s_gxx v) (s_gxy v) (s_gyy v)
               (s_gx3 v) (s_gy3 v)
  | _ => t22 (s_gy v) (s_gxy v) (s_gyy v) (s_gy3 v)
  end.

(** ** Two properties of computations *)

(** The computation never reads the components of the destination: started
    on two destinations with the same number of bands it has the same
    outcome and makes the same calls, and wherever the two final images
    differ, both hold what they held at the start. *)
Definition oblivious {A} (m : M A) : Prop :=
  forall s t, numBands (dest s) = numBands (dest t) ->
    fst (m s) = fst (m t) /\
    numBands (dest (snd (m s))) = numBands (dest s) /\
    (exists l, calls (snd (m s)) = calls s ++ l /\
               calls (snd (m t)) = calls t ++ l) /\
    forall px py idx,
      component (dest (snd (m s))) px py idx
      = component (dest (snd (m t))) px py idx \/
      (component (dest (snd (m s))) px py idx = component (dest s) px py idx /\
       component (dest (snd (m t))) px py idx = component (dest t) px py idx).

(** Every error that the computation raises satisfies [P]. *)
Definition raises_only {A} (P : Error -> Prop) (m : M A) : Prop :=
  forall s e s', m s = (Raised e, s') -> P e.

(** The computation writes no pixel outside the window of [w] x [h] pixels
    at [ul], calls no primitive and keeps the number of bands. *)
Definition writes_within {A} (ul : ImageIterator) (w h : Z) (m : M A)
    : Prop :=
  forall s,
    numBands (dest (snd (m s))) = numBands (dest s) /\
    calls (snd (m s)) = calls s /\
    forall px py idx, ~ in_window ul w h px py ->
      component (dest (snd (m s))) px py idx = component (dest s) px py idx.

End Embedding.

Arguments BasicImage T : clear implicits.
Arguments DestAccessor T : clear implicits.
Arguments SrcAccessor T : clear implicits.
Arguments Fields T : clear implicits.
Arguments World T Kernel1D : clear implicits.
Arguments Raised {CollaboratorError A} _.
Arguments Done {CollaboratorError A} _.
Arguments PreconditionFailure {CollaboratorError} _.
Arguments Propagated {CollaboratorError} _.
Arguments InvalidAccess {CollaboratorError}.
Arguments CallConvolveImage {Kernel1D} _ _.
Arguments CallCombineTwoImages {Kernel1D}.
Arguments dest {T Kernel1D} _.
Arguments calls {T Kernel1D} _.
Arguments ret {T Kernel1D CollaboratorError A} _ _.
Arguments bind {T Kernel1D CollaboratorError A B} _ _ _.
Arguments raise {T Kernel1D CollaboratorError A} _ _.
Arguments record_call {T Kernel1D CollaboratorError} _ _.
Arguments vigra_precondition {T Kernel1D CollaboratorError} _ _ _.
Arguments call_convolveImage {T Kernel1D CollaboratorError} _ _ _ _ _ _.
Arguments call_combineTwoImages {T Kernel1D CollaboratorError} _ _ _ _ _.
Arguments accessor_size {T Kernel1D CollaboratorError} _ _.
Arguments setComponent {T Kernel1D CollaboratorError} _ _ _ _.
Arguments deref {T Kernel1D CollaboratorError} _ _ _.
Arguments assemble_pixel {T _ Kernel1D CollaboratorError} _ _ _ _.
Arguments row_loop {T _ Kernel1D CollaboratorError} _ _ _ _ _.
Arguments image_loop {T _ Kernel1D CollaboratorError} _ _ _ _ _ _.
Arguments gradientEnergyTensor {T _ Kernel1D CollaboratorError} _ _ _ _ _ _ _ _.
Arguments keeps_extent {T Kernel1D CollaboratorError} _.
Arguments empty_region_returns {T _ Kernel1D CollaboratorError} _ _ _ _ _ _ _ _.
Arguments zero_fields {T _} _ _.
Arguments constant_image {T} _ _ _.
Arguments spec_cascade {T _ Kernel1D CollaboratorError} _ _ _ _ _ _ _.
Arguments cascade_calls {Kernel1D} _ _.
Arguments annihilates_constant {T _ Kernel1D CollaboratorError} _ _ _ _ _ _.
Arguments oblivious {T Kernel1D CollaboratorError A} _.
Arguments writes_within {T Kernel1D CollaboratorError A} _ _ _ _.
Arguments raises_only {T Kernel1D CollaboratorError A} _ _.
Arguments Samples T : clear implicits.
Arguments gradientEnergyTensor_args {T _ Kernel1D CollaboratorError} _ _ _ _ _.
Arguments derivativeCascade {T _ Kernel1D CollaboratorError} _ _ _ _ _ _ _.
Arguments tensorAssembly {T _ Kernel1D CollaboratorError} _ _ _ _ _.

(** ** A reference instance

    Exact rational arithmetic for [TmpType], and a separable convolution
    for [convolveImage]. *)

Module Reference.

(** Rationals kept in lowest terms, so that equal numbers are equal
    terms. *)
#[export] Instance Q_RealPromote : RealPromote Q := {|
  r_zero := 0%Q;
  r_add := fun a b => Qred (a + b);
  r_sub := fun a b => Qred (a - b);
  r_mul := fun a b => Qred (a * b);
  r_neg := fun a => Qred (- a);
  r_half := (1 # 2)%Q
|}.

(** How a filter reads beyond the end of a line. *)
Inductive BorderTreatmentMode : Type :=
  | BORDER_TREATMENT_REPEAT
  | BORDER_TREATMENT_REFLECT
  | BORDER_TREATMENT_ZEROPAD.

(** Modelled from the spec: [Kernel1D<double>] of
    [vigra/separableconvolution.hxx], which is not among the sources: a
    sequence of taps, the first of which has index [left] (the centre has
    index 0), and a border treatment. *)
Record Kernel1D : Type := {
  left : Z;
  kernel : list Q;
  borderTreatment : BorderTreatmentMode
}.

(** The one failure of the reference convolution: a kernel with more taps
    than the line it filters has pixels. *)
Inductive ConvolutionError : Type := KernelLongerThanLine.

(** The index that is read for index [i] of a line of [n] pixels. *)
Definition border (mode : BorderTreatmentMode) (n i : Z) : option Z :=
  if (0 <=? i) && (i <? n) then Some i
  else match mode with
       | BORDER_TREATMENT_REPEAT => Some (if i <? 0 then 0 else n - 1)
       | BORDER_TREATMENT_REFLECT => Some (if i <? 0 then - i else 2 * (n - 1) - i)
       | BORDER_TREATMENT_ZEROPAD => None
       end.

Definition get (img : BasicImage Q) (col row : Z) : Q :=
  nth (Z.to_nat (row * width img + col)) (data img) 0%Q.

(** The sum of [tap i * f i] over the taps, the first of which has
    index [i]. *)
Fixpoint dot (taps : list Q) (i : Z) (f : Z -> Q) : Q :=
  match taps with
  | [] => r_zero
  | t :: taps' => (t * f i + dot taps' (i + 1) f)%tmp
  end.

(** The filtered pixel: the sum over the kernel indices [i] of
    [kernel[i] * src(col - i, row)], and likewise along y. *)
Definition convolveX (k : Kernel1D) (src : BasicImage Q) (col row : Z) : Q :=
  dot (kernel k) (left k)
      (fun i => match border (borderTreatment k) (width src) (col - i) with
                | Some c => get src c row
                | None => r_zero
                end).

Definition convolveY (k : Kernel1D) (src : BasicImage Q) (col row : Z) : Q :=
  dot (kernel k) (left k)
      (fun i => match border (borderTreatment k) (height src) (row - i) with
                | Some r => get src col r
                | None => r_zero
                end).

(** The pixels of [d] inside the extent of [src] are assigned [f col row];
    [d] keeps its extent. *)
Definition write_image (src d : BasicImage Q) (f : Z -> Z -> Q)
    : BasicImage Q :=
  {| width := width d; height := height d;
     data :=
       imap (fun (off : nat) (old : Q) =>
               let col := Z.of_nat off mod width d in
               let row := Z.of_nat off / width d in
               if (col <? width src) && (row <? height src) then f col row
               else old)
            (data d) |}.

(** Modelled from the spec: the separable convolution: [kx] is applied
    along the rows into a temporary image, [ky] along the columns of the
    temporary image into [d]. *)
Definition convolveImage (src d : BasicImage Q) (kx ky : Kernel1D)
    : ConvolutionError + BasicImage Q :=
  if (width src <? Z.of_nat (length (kernel kx)))
     || (height src <? Z.of_nat (length (kernel ky)))
  then inl KernelLongerThanLine
  else
    let tmp := write_image src src (convolveX kx src) in
    inr (write_image src d (convolveY ky tmp)).

(** The sum of the taps of a kernel. *)
Definition tap_sum (taps : list Q) : Q := fold_right Qplus 0%Q taps.

(** The centre of the kernel is one of its taps, and beyond the end of a
    line the kernel reads pixels of the line. *)
Definition kernel_reads_image (k : Kernel1D) : Prop :=
  left k <= 0 <= left k + Z.of_nat (length (kernel k)) - 1 /\
  borderTreatment k <> BORDER_TREATMENT_ZEROPAD.

(** The kernels of the documentation of the source: [0.5, 0, -0.5] and
    [3/16, 10/16, 3/16]. *)
Definition grad : Kernel1D :=
  {| left := -1; kernel := [1 # 2; 0; - (1 # 2)]%Q;
     borderTreatment := BORDER_TREATMENT_REFLECT |}.
Definition smooth : Kernel1D :=
  {| left := -1; kernel := [3 # 16; 5 # 8; 3 # 16]%Q;
     borderTreatment := BORDER_TREATMENT_REFLECT |}.

(** A destination of [n] bands, all zero. *)
Definition blank (n : nat) : DestAccessor Q :=
  {| numBands := n; component := fun _ _ _ => 0%Q |}.

Definition origin : ImageIterator := {| pos_x := 0; pos_y := 0 |}.
Definition corner (w h : Z) : ImageIterator := {| pos_x := w; pos_y := h |}.

(** Test images: a quadratic surface, a constant and zero. *)
Definition bowl : SrcAccessor Q :=
  fun i => inject_Z (pos_x i * pos_x i + pos_y i * pos_x i).
Definition flat (c : Q) : SrcAccessor Q := fun _ => c.

Definition GET (lr : ImageIterator) (src : SrcAccessor Q)
    (dul : ImageIterator) (d : DestAccessor Q) :=
  gradientEnergyTensor convolveImage origin lr src dul d grad smooth.

End Reference.

(** * Properties *)

Section Properties.

Context {T : Type} `{RealPromote T} {Kernel1D CollaboratorError : Type}.

Variable convolveImage :
  BasicImage T -> BasicImage T -> Kernel1D -> Kernel1D ->
  CollaboratorError + BasicImage T.

Local Abbreviation M := (@M T Kernel1D CollaboratorError).
Local Abbreviation World := (World T Kernel1D).

(** ** The monad *)

Lemma bind_Done {A B} (m : M A) (k : A -> M B) s a s' :
  m s = (Done a, s') -> bind m k s = k a s'.
Proof. intros Hm. unfold bind. now rewrite Hm. Qed.

Lemma bind_Raised {A B} (m : M A) (k : A -> M B) s e s' :
  m s = (Raised e, s') -> bind m k s = (Raised e, s').
Proof. intros Hm. unfold bind. now rewrite Hm. Qed.

(** ** Computations that never read the destination *)

Lemma oblivious_ret {A} (a : A) : oblivious (ret a : M A).
Proof.
  intros s t Hb. cbn. repeat split; [ | now right].
  exists []. now rewrite !app_nil_r.
Qed.

Lemma oblivious_raise {A} (e : Error CollaboratorError) :
  oblivious (raise e : M A).
Proof.
  intros s t Hb. cbn. repeat split; [ | now right].
  exists []. now rewrite !app_nil_r.
Qed.

Lemma oblivious_bind {A B} (m : M A) (k : A -> M B) :
  oblivious m -> (forall a, oblivious (k a)) -> oblivious (bind m k).
Proof.
  intros Hm Hk s t Hb.
  destruct (Hm s t Hb) as (Hr & Hn & (l & Hcs & Hct) & Hp).
  destruct (Hm t s (eq_sym Hb)) as (_ & Hn' & _ & _).
  unfold bind.
  destruct (m s) as [[a|e] s1] eqn:Es, (m t) as [[b|e'] t1] eqn:Et;
    cbn in *; try discriminate.
  - injection Hr as <-.
    assert (Hb1 : numBands (dest s1) = numBands (dest t1)) by congruence.
    destruct (Hk a s1 t1 Hb1) as (Hr2 & Hn2 & (l2 & Hcs2 & Hct2) & Hp2).
    split; [exact Hr2 | ]. split; [congruence | ]. split.
    + exists (l ++ l2). rewrite Hcs2, Hct2, Hcs, Hct. now rewrite !app_assoc.
    + intros px py idx.
      destruct (Hp2 px py idx) as [He | [H1 H2]]; [now left | ].
      destruct (Hp px py idx) as [He | [H3 H4]].
      * left. congruence.
      * right. split; congruence.
  - injection Hr as <-.
    split; [reflexivity | ]. split; [exact Hn | ]. split; [ | exact Hp].
    now exists l.
Qed.

Lemma oblivious_record_call (c : Call Kernel1D) :
  oblivious (record_call c : M unit).
Proof.
  intros s t Hb. cbn. repeat split; [ | now right]. now exists [c].
Qed.

Lemma oblivious_vigra_precondition cond msg :
  oblivious (vigra_precondition cond msg : M unit).
Proof.
  unfold vigra_precondition.
  destruct cond; [apply oblivious_ret | apply oblivious_raise].
Qed.

Lemma oblivious_deref img off : oblivious (deref img off : M T).
Proof.
  unfold deref.
  destruct (data img !! off); [apply oblivious_ret | apply oblivious_raise].
Qed.

Lemma oblivious_setComponent v i idx :
  oblivious (setComponent v i idx : M unit).
Proof.
  intros s t Hb. unfold setComponent. rewrite <- Hb.
  destruct (idx <? numBands (dest s))%nat; cbn.
  - repeat split.
    + exists []. now rewrite !app_nil_r.
    + intros px py k. destruct (decide _); [now left | now right].
  - repeat split; [ | now right]. exists []. now rewrite !app_nil_r.
Qed.

Lemma oblivious_call_convolveImage src d kx ky :
  oblivious (call_convolveImage convolveImage src d kx ky).
Proof.
  unfold call_convolveImage.
  apply oblivious_bind; [apply oblivious_record_call | intros _].
  destruct (convolveImage src d kx ky);
    [apply oblivious_raise | apply oblivious_ret].
Qed.

Lemma oblivious_call_combineTwoImages src1 src2 d f :
  oblivious (call_combineTwoImages src1 src2 d f : M (BasicImage T)).
Proof.
  unfold call_combineTwoImages.
  apply oblivious_bind; [apply oblivious_record_call | intros _].
  apply oblivious_ret.
Qed.

Create HintDb oblivious.
#[local] Hint Resolve oblivious_ret oblivious_raise oblivious_record_call
  oblivious_vigra_precondition oblivious_deref oblivious_setComponent
  oblivious_call_convolveImage oblivious_call_combineTwoImages : oblivious.

Ltac oblivious_step :=
  first [ solve [auto with oblivious] | apply oblivious_bind; [ | intros ? ] ].

Lemma oblivious_derivativeCascade img w h dk sk :
  oblivious (derivativeCascade convolveImage img w h dk sk).
Proof. unfold derivativeCascade. cbv zeta. repeat oblivious_step. Qed.

Lemma oblivious_assemble_pixel F d off :
  oblivious (assemble_pixel F d off : M unit).
Proof. unfold assemble_pixel. repeat oblivious_step. Qed.

Lemma oblivious_row_loop F todo :
  forall d off, oblivious (row_loop F todo d off : M nat).
Proof.
  induction todo as [|todo IH]; intros d off; cbn.
  - apply oblivious_ret.
  - apply oblivious_bind; [apply oblivious_assemble_pixel | intros _; apply IH].
Qed.

Lemma oblivious_image_loop F w todo :
  forall d off, oblivious (image_loop F w todo d off : M nat).
Proof.
  induction todo as [|todo IH]; intros d off; cbn.
  - apply oblivious_ret.
  - apply oblivious_bind; [apply oblivious_row_loop | intros off'; apply IH].
Qed.

Lemma oblivious_tensorAssembly F w h dul :
  oblivious (tensorAssembly F w h dul : M unit).
Proof.
  unfold tensorAssembly.
  apply oblivious_bind; [apply oblivious_image_loop | intros _].
  apply oblivious_ret.
Qed.

(** ** The window that is written *)

Lemma writes_within_ret {A} ul w h (a : A) : writes_within ul w h (ret a : M A).
Proof. intros s. now cbn. Qed.

Lemma writes_within_raise {A} ul w h (e : Error CollaboratorError) :
  writes_within ul w h (raise e : M A).
Proof. intros s. now cbn. Qed.

Lemma writes_within_bind {A B} ul w h (m : M A) (k : A -> M B) :
  writes_within ul w h m -> (forall a, writes_within ul w h (k a)) ->
  writes_within ul w h (bind m k).
Proof.
  intros Hm Hk s. specialize (Hm s). unfold bind.
  destruct (m s) as [[a|e] s1]; cbn in *; [ | exact Hm].
  destruct Hm as (Hn & Hc & Hp), (Hk a s1) as (Hn2 & Hc2 & Hp2).
  split; [congruence | ]. split; [congruence | ].
  intros px py idx Hout. rewrite Hp2, Hp; auto.
Qed.

Lemma writes_within_deref ul w h img off :
  writes_within ul w h (deref img off : M T).
Proof.
  unfold deref. destruct (data img !! off);
    [apply writes_within_ret | apply writes_within_raise].
Qed.

Lemma writes_within_setComponent ul w h v i idx :
  in_window ul w h (pos_x i) (pos_y i) ->
  writes_within ul w h (setComponent v i idx : M unit).
Proof.
  intros Hin s. unfold setComponent.
  destruct (idx <? numBands (dest s))%nat; cbn; [ | easy].
  repeat split. intros px py k Hout.
  destruct (decide _) as [(-> & -> & _)|]; [contradiction | reflexivity].
Qed.

Lemma writes_within_assemble_pixel ul w h F d off :
  in_window ul w h (pos_x d) (pos_y d) ->
  writes_within ul w h (assemble_pixel F d off : M unit).
Proof.
  intros Hin. unfold assemble_pixel.
  repeat first
    [ apply writes_within_deref
    | apply writes_within_setComponent; exact Hin
    | apply writes_within_bind; [ | intros ? ] ].
Qed.

Lemma writes_within_row_loop ul w h F todo :
  forall d off,
    (forall k : nat, (k < todo)%nat ->
       in_window ul w h (pos_x d + Z.of_nat k) (pos_y d)) ->
    writes_within ul w h (row_loop F todo d off : M nat).
Proof.
  induction todo as [|todo IH]; intros d off Hin; cbn.
  - apply writes_within_ret.
  - apply writes_within_bind.
    + apply writes_within_assemble_pixel.
      specialize (Hin 0%nat ltac:(lia)). now rewrite Z.add_0_r in Hin.
    + intros _. apply IH. intros k Hk. cbn.
      specialize (Hin (S k) ltac:(lia)).
      now replace (pos_x d + 1 + Z.of_nat k) with (pos_x d + Z.of_nat (S k))
        by lia.
Qed.

Lemma writes_within_image_loop ul w0 h0 F w todo :
  forall d off,
    (forall r k : nat, (r < todo)%nat -> (k < Z.to_nat w)%nat ->
       in_window ul w0 h0 (pos_x d + Z.of_nat k) (pos_y d + Z.of_nat r)) ->
    writes_within ul w0 h0 (image_loop F w todo d off : M nat).
Proof.
  induction todo as [|todo IH]; intros d off Hin; cbn.
  - apply writes_within_ret.
  - apply writes_within_bind.
    + apply writes_within_row_loop. intros k Hk.
      specialize (Hin 0%nat k ltac:(lia) Hk). now rewrite Z.add_0_r in Hin.
    + intros off'. apply IH. intros r k Hr Hk. cbn.
      specialize (Hin (S r) k ltac:(lia) Hk).
      now replace (pos_y d + 1 + Z.of_nat r) with (pos_y d + Z.of_nat (S r))
        by lia.
Qed.

Lemma writes_within_tensorAssembly F w h dul :
  writes_within dul w h (tensorAssembly F w h dul : M unit).
Proof.
  unfold tensorAssembly.
  apply writes_within_bind; [ | intros _; apply writes_within_ret].
  apply writes_within_image_loop. intros r k Hr Hk.
  unfold in_window. lia.
Qed.

(** ** The cascade leaves the destination alone *)

Lemma call_convolveImage_run src d kx ky s :
  call_convolveImage convolveImage src d kx ky s =
  (match convolveImage src d kx ky with
   | inr d' => Done d'
   | inl e => Raised (Propagated e)
   end,
   {| dest := dest s; calls := calls s ++ [CallConvolveImage kx ky] |}).
Proof.
  unfold call_convolveImage, bind, record_call.
  now destruct (convolveImage src d kx ky).
Qed.

Lemma call_combineTwoImages_run src1 src2 d f (s : World) :
  call_combineTwoImages (CollaboratorError := CollaboratorError)
    src1 src2 d f s =
  (Done (combineTwoImages src1 src2 d f),
   {| dest := dest s; calls := calls s ++ [CallCombineTwoImages] |}).
Proof. reflexivity. Qed.

Lemma bind_call_convolveImage {B} src d kx ky (k : BasicImage T -> M B) s :
  bind (call_convolveImage convolveImage src d kx ky) k s =
  match convolveImage src d kx ky with
  | inr d' =>
      k d' {| dest := dest s; calls := calls s ++ [CallConvolveImage kx ky] |}
  | inl e =>
      (Raised (Propagated e),
       {| dest := dest s; calls := calls s ++ [CallConvolveImage kx ky] |})
  end.
Proof.
  unfold bind at 1. rewrite call_convolveImage_run.
  now destruct (convolveImage src d kx ky).
Qed.

Lemma bind_call_combineTwoImages {B} src1 src2 d f
    (k : BasicImage T -> M B) s :
  bind (call_combineTwoImages src1 src2 d f) k s =
  k (combineTwoImages src1 src2 d f)
    {| dest := dest s; calls := calls s ++ [CallCombineTwoImages] |}.
Proof. reflexivity. Qed.

(** One step of the cascade, in a hypothesis or in the goal. *)
Ltac cascade_step_in Hrun :=
  first [ rewrite bind_call_convolveImage in Hrun;
          match type of Hrun with
          | match ?c with _ => _ end = _ =>
              destruct c eqn:?; [discriminate | ]
          end
        | rewrite bind_call_combineTwoImages in Hrun ].

Lemma derivativeCascade_Done img w h dk sk s F s' :
  derivativeCascade convolveImage img w h dk sk s = (Done F, s') ->
  spec_cascade convolveImage img w h dk sk F /\
  s' = {| dest := dest s; calls := calls s ++ cascade_calls dk sk |}.
Proof.
  unfold derivativeCascade, spec_cascade. cbv zeta. intros Hrun.
  repeat cascade_step_in Hrun.
  unfold ret in Hrun. injection Hrun as <- <-. cbn.
  rewrite <- !app_assoc. cbn. repeat split; assumption.
Qed.

Lemma spec_cascade_run img w h dk sk s F :
  spec_cascade convolveImage img w h dk sk F ->
  derivativeCascade convolveImage img w h dk sk s =
  (Done F, {| dest := dest s; calls := calls s ++ cascade_calls dk sk |}).
Proof.
  intros (Hgx & Hgy & Hgxx & Hgxy & Hgyy & Hlap & Hgx3 & Hgy3).
  unfold derivativeCascade. cbv zeta.
  rewrite bind_call_convolveImage, Hgx.
  rewrite bind_call_convolveImage, Hgy.
  rewrite bind_call_convolveImage, Hgxx.
  rewrite bind_call_convolveImage, Hgxy.
  rewrite bind_call_convolveImage, Hgyy.
  rewrite bind_call_combineTwoImages, <- Hlap.
  rewrite bind_call_convolveImage, Hgx3.
  rewrite bind_call_convolveImage, Hgy3.
  unfold ret. cbn. rewrite <- !app_assoc. cbn.
  now destruct F.
Qed.

(** Whatever the outcome, the cascade writes no pixel. *)
Lemma derivativeCascade_dest img w h dk sk s :
  dest (snd (derivativeCascade convolveImage img w h dk sk s)) = dest s.
Proof.
  unfold derivativeCascade. cbv zeta.
  repeat first
    [ rewrite bind_call_convolveImage;
      match goal with
      | |- dest (snd (match ?c with _ => _ end)) = _ =>
          destruct c; [reflexivity | ]
      end
    | rewrite bind_call_combineTwoImages ].
  reflexivity.
Qed.

(** The cascade does not raise errors of its own. *)
Lemma derivativeCascade_Raised img w h dk sk s e s' :
  derivativeCascade convolveImage img w h dk sk s = (Raised e, s') ->
  exists c, e = Propagated c.
Proof.
  unfold derivativeCascade. cbv zeta. intros Hrun.
  repeat first
    [ rewrite bind_call_convolveImage in Hrun;
      match type of Hrun with
      | match ?c with _ => _ end = _ =>
          destruct c as [c0|]; [injection Hrun as <- _; now exists c0 | ]
      end
    | rewrite bind_call_combineTwoImages in Hrun ].
  discriminate.
Qed.

(** ** Extents *)

Lemma BasicImage_new_extent w h : has_extent w h (BasicImage_new (T := T) w h).
Proof. unfold has_extent. cbn. now rewrite length_replicate. Qed.

Lemma same_extent_has_extent w h (d d' : BasicImage T) :
  has_extent w h d -> same_extent d d' -> has_extent w h d'.
Proof. unfold has_extent, same_extent. intuition congruence. Qed.

Lemma combineTwoImages_extent w h (a b d : BasicImage T) f :
  has_extent w h d -> has_extent w h (combineTwoImages a b d f).
Proof. unfold has_extent. cbn. now rewrite length_imap. Qed.

Lemma length_rows {A} (f : nat -> nat -> A) (n : nat) (rows : list nat) :
  length (flat_map (fun row => map (f row) (seq 0 n)) rows)
  = (n * length rows)%nat.
Proof.
  induction rows as [|r rows IH]; cbn.
  - lia.
  - rewrite length_app, length_map, length_seq, IH. lia.
Qed.

Lemma srcIterRange_extent ul lr (src : SrcAccessor T) :
  has_extent (pos_x lr - pos_x ul) (pos_y lr - pos_y ul)
    (srcIterRange ul lr src).
Proof.
  unfold has_extent, srcIterRange. cbn. repeat split.
  rewrite (length_rows
             (fun row col =>
                src {| pos_x := pos_x ul + Z.of_nat col;
                       pos_y := pos_y ul + Z.of_nat row |})).
  now rewrite length_seq.
Qed.

Lemma spec_cascade_extent img w h dk sk F :
  keeps_extent convolveImage ->
  spec_cascade convolveImage img w h dk sk F ->
  fields_have_extent w h F.
Proof.
  intros Hk (Hgx & Hgy & Hgxx & Hgxy & Hgyy & Hlap & Hgx3 & Hgy3).
  pose proof (BasicImage_new_extent w h) as Hnew.
  unfold fields_have_extent. rewrite Hlap.
  repeat split;
    first [ apply combineTwoImages_extent, Hnew
          | eapply same_extent_has_extent; [exact Hnew | ];
            eapply Hk; eassumption ].
Qed.

(** In an image of [w] x [h] pixels, the pixel in column [col] of row
    [row] is at offset [row * w + col], and it is there. *)
Lemma has_extent_pixel w h (img : BasicImage T) (col row : nat) :
  has_extent w h img -> (col < Z.to_nat w)%nat ->
  pixel img col row = data img !! (row * Z.to_nat w + col)%nat.
Proof.
  intros (Hw & _ & _) Hcol. unfold pixel. rewrite Hw.
  now destruct (decide (col < Z.to_nat w)%nat).
Qed.

Lemma has_extent_lookup w h (img : BasicImage T) (off : nat) :
  has_extent w h img -> (off < Z.to_nat w * Z.to_nat h)%nat ->
  is_Some (data img !! off).
Proof. intros (_ & _ & Hlen) Hoff. apply lookup_lt_is_Some. lia. Qed.

Lemma fields_have_extent_samples w h (F : Fields T) (off : nat) :
  fields_have_extent w h F -> (off < Z.to_nat w * Z.to_nat h)%nat ->
  is_Some (samples F off).
Proof.
  intros (Hgx & Hgy & Hgxx & Hgxy & Hgyy & _ & Hgx3 & Hgy3) Hoff.
  unfold samples.
  destruct (has_extent_lookup _ _ _ off Hgx Hoff) as [? ->].
  destruct (has_extent_lookup _ _ _ off Hgy Hoff) as [? ->].
  destruct (has_extent_lookup _ _ _ off Hgxx Hoff) as [? ->].
  destruct (has_extent_lookup _ _ _ off Hgxy Hoff) as [? ->].
  destruct (has_extent_lookup _ _ _ off Hgyy Hoff) as [? ->].
  destruct (has_extent_lookup _ _ _ off Hgx3 Hoff) as [? ->].
  destruct (has_extent_lookup _ _ _ off Hgy3 Hoff) as [? ->].
  eauto.
Qed.

Lemma samples_Some (F : Fields T) off v :
  samples F off = Some v ->
  data (gx F) !! off = Some (s_gx v) /\ data (gy F) !! off = Some (s_gy v) /\
  data (gxx F) !! off = Some (s_gxx v) /\
  data (gxy F) !! off = Some (s_gxy v) /\
  data (gyy F) !! off = Some (s_gyy v) /\
  data (gx3 F) !! off = Some (s_gx3 v) /\
  data (gy3 F) !! off = Some (s_gy3 v).
Proof.
  unfold samples.
  destruct (data (gx F) !! off), (data (gy F) !! off),
    (data (gxx F) !! off), (data (gxy F) !! off), (data (gyy F) !! off),
    (data (gx3 F) !! off), (data (gy3 F) !! off); try discriminate.
  intros [= <-]. cbn. repeat split.
Qed.

(** ** The assembly, when the iterators stay inside the fields *)

Lemma setComponent_Done v i idx (s : World) :
  (idx < numBands (dest s))%nat ->
  setComponent (CollaboratorError := CollaboratorError) v i idx s =
  (Done tt, {| dest := write_component v i idx (dest s); calls := calls s |}).
Proof.
  intros Hlt. unfold setComponent.
  now destruct (Nat.ltb_spec idx (numBands (dest s))); [ | lia].
Qed.

Lemma assemble_pixel_Done F d off (s : World) v :
  numBands (dest s) = 3%nat -> samples F off = Some v ->
  assemble_pixel (CollaboratorError := CollaboratorError) F d off s =
  (Done tt,
   {| dest :=
        write_component (tensor v 2) d 2
          (write_component (tensor v 1) d 1
             (write_component (tensor v 0) d 0 (dest s)));
      calls := calls s |}).
Proof.
  intros Hb Hv.
  destruct (samples_Some _ _ _ Hv) as (Hgx & Hgy & Hgxx & Hgxy & Hgyy & Hgx3 & Hgy3).
  unfold assemble_pixel, bind, deref.
  rewrite Hgxx, Hgxy, Hgx, Hgx3. cbn.
  rewrite setComponent_Done by (cbn; lia). rewrite Hgyy, Hgy3, Hgy. cbn.
  rewrite setComponent_Done by (cbn; lia).
  rewrite setComponent_Done by (cbn; lia).
  reflexivity.
Qed.

Lemma write_component_tensor v d (old : DestAccessor T) idx :
  (idx < 3)%nat ->
  component
    (write_component (tensor v 2) d 2
       (write_component (tensor v 1) d 1
          (write_component (tensor v 0) d 0 old)))
    (pos_x d) (pos_y d) idx
  = tensor v idx.
Proof.
  intros Hidx.
  destruct idx as [|[|[|idx]]]; [ | | | lia]; cbn [component write_component];
    repeat case_decide; first [reflexivity | intuition (discriminate || lia)].
Qed.

Lemma row_loop_Done (F : Fields T) todo :
  forall d off (s : World),
    numBands (dest s) = 3%nat ->
    (forall k, (k < todo)%nat -> is_Some (samples F (off + k))) ->
    exists s',
      row_loop (CollaboratorError := CollaboratorError) F todo d off s
      = (Done (off + todo)%nat, s') /\
      numBands (dest s') = 3%nat /\
      forall k v idx,
        (k < todo)%nat -> samples F (off + k) = Some v -> (idx < 3)%nat ->
        component (dest s') (pos_x d + Z.of_nat k) (pos_y d) idx
        = tensor v idx.
Proof.
  induction todo as [|todo IH]; intros d off s Hb Hin.
  - exists s. cbn. rewrite Nat.add_0_r. repeat split; [exact Hb | ].
    intros; lia.
  - destruct (Hin 0%nat ltac:(lia)) as [v0 Hv0].
    rewrite Nat.add_0_r in Hv0.
    pose proof (assemble_pixel_Done F d off s v0 Hb Hv0) as Hpix.
    set (s1 := {| dest := _; calls := calls s |}) in Hpix.
    destruct (IH (inc_x d) (S off) s1) as (s' & Hrun & Hb' & Hval).
    { exact Hb. }
    { intros k Hk. replace (S off + k)%nat with (off + S k)%nat by lia.
      apply Hin. lia. }
    exists s'. cbn [row_loop]. rewrite (bind_Done _ _ _ _ _ Hpix), Hrun.
    replace (S off + todo)%nat with (off + S todo)%nat by lia.
    repeat split; [exact Hb' | ].
    intros [|k] v idx Hk Hv Hidx.
    + rewrite Nat.add_0_r in Hv. rewrite Hv0 in Hv. injection Hv as <-.
      rewrite Z.add_0_r.
      destruct (writes_within_row_loop (inc_x d) (Z.of_nat todo) 1 F todo
                  (inc_x d) (S off)) with (s := s1) as (_ & _ & Hframe).
      { intros k Hk'. unfold in_window. lia. }
      rewrite Hrun in Hframe. cbn [snd] in Hframe.
      rewrite Hframe by (unfold in_window; cbn; lia).
      now apply write_component_tensor.
    + replace (pos_x d + Z.of_nat (S k)) with (pos_x (inc_x d) + Z.of_nat k)
        by (cbn; lia).
      change (pos_y d) with (pos_y (inc_x d)).
      apply Hval; [lia | | exact Hidx].
      now replace (S off + k)%nat with (off + S k)%nat by lia.
Qed.

Lemma image_loop_Done (F : Fields T) w todo :
  forall d off (s : World),
    numBands (dest s) = 3%nat ->
    (forall j, (j < todo * Z.to_nat w)%nat -> is_Some (samples F (off + j))) ->
    exists s',
      image_loop (CollaboratorError := CollaboratorError) F w todo d off s
      = (Done (off + todo * Z.to_nat w)%nat, s') /\
      numBands (dest s') = 3%nat /\
      forall r k v idx,
        (r < todo)%nat -> (k < Z.to_nat w)%nat ->
        samples F (off + (r * Z.to_nat w + k)) = Some v -> (idx < 3)%nat ->
        component (dest s') (pos_x d + Z.of_nat k) (pos_y d + Z.of_nat r) idx
        = tensor v idx.
Proof.
  induction todo as [|todo IH]; intros d off s Hb Hin.
  - exists s. cbn. rewrite Nat.add_0_r. repeat split; [exact Hb | ].
    intros; lia.
  - destruct (row_loop_Done F (Z.to_nat w) d off s Hb) as (s1 & Hrow & Hb1 & Hval1).
    { intros k Hk. apply Hin. lia. }
    destruct (IH (inc_y d) (off + Z.to_nat w)%nat s1 Hb1)
      as (s' & Hrun & Hb' & Hval).
    { intros j Hj.
      replace (off + Z.to_nat w + j)%nat with (off + (Z.to_nat w + j))%nat
        by lia.
      apply Hin. lia. }
    exists s'. cbn [image_loop]. rewrite (bind_Done _ _ _ _ _ Hrow), Hrun.
    replace (off + Z.to_nat w + todo * Z.to_nat w)%nat
      with (off + S todo * Z.to_nat w)%nat by lia.
    repeat split; [exact Hb' | ].
    intros [|r] k v idx Hr Hk Hv Hidx.
    + rewrite Z.add_0_r.
      destruct (writes_within_image_loop (inc_y d) w (Z.of_nat todo) F w todo
                  (inc_y d) (off + Z.to_nat w)%nat) with (s := s1)
        as (_ & _ & Hframe).
      { intros r k' Hr' Hk'. unfold in_window. lia. }
      rewrite Hrun in Hframe. cbn [snd] in Hframe.
      rewrite Hframe by (unfold in_window; cbn; lia).
      apply Hval1; [exact Hk | | exact Hidx].
      now replace (off + k)%nat with (off + (0 * Z.to_nat w + k))%nat by lia.
    + replace (pos_y d + Z.of_nat (S r)) with (pos_y (inc_y d) + Z.of_nat r)
        by (cbn; lia).
      change (pos_x d) with (pos_x (inc_y d)).
      apply Hval; [lia | exact Hk | | exact Hidx].
      rewrite <- Hv. f_equal. lia.
Qed.

(** The assembly completes when the seven fields hold [w] x [h] pixels, and
    each pixel of the window then holds the tensor of the samples at its
    offset. *)
Lemma tensorAssembly_Done (F : Fields T) w h dul (s : World) :
  numBands (dest s) = 3%nat ->
  (forall off, (off < Z.to_nat w * Z.to_nat h)%nat -> is_Some (samples F off)) ->
  exists s',
    tensorAssembly (CollaboratorError := CollaboratorError) F w h dul s
    = (Done tt, s') /\
    numBands (dest s') = 3%nat /\
    calls s' = calls s /\
    (forall col row v idx,
       (col < Z.to_nat w)%nat -> (row < Z.to_nat h)%nat ->
       samples F (row * Z.to_nat w + col) = Some v -> (idx < 3)%nat ->
       component (dest s') (pos_x dul + Z.of_nat col)
                 (pos_y dul + Z.of_nat row) idx
       = tensor v idx) /\
    (forall px py idx, ~ in_window dul w h px py ->
       component (dest s') px py idx = component (dest s) px py idx).
Proof.
  intros Hb Hin.
  destruct (image_loop_Done F w (Z.to_nat h) dul 0%nat s Hb)
    as (s' & Hrun & Hb' & Hval).
  { intros j Hj. apply Hin. lia. }
  assert (Hasm : tensorAssembly (CollaboratorError := CollaboratorError)
                   F w h dul s = (Done tt, s')).
  { unfold tensorAssembly. now rewrite (bind_Done _ _ _ _ _ Hrun). }
  destruct (writes_within_tensorAssembly F w h dul s) as (_ & Hc & Hframe).
  rewrite Hasm in Hc, Hframe. cbn [snd] in Hc, Hframe.
  exists s'. repeat split; try assumption.
  intros col row v idx Hcol Hrow Hv Hidx. now apply Hval.
Qed.

(** ** The errors of the assembly *)

Lemma raises_only_ret {A} P (a : A) : raises_only P (ret a : M A).
Proof. intros s e s'. discriminate. Qed.

Lemma raises_only_bind {A B} P (m : M A) (k : A -> M B) :
  raises_only P m -> (forall a, raises_only P (k a)) ->
  raises_only P (bind m k).
Proof.
  intros Hm Hk s e s'. unfold bind.
  destruct (m s) as [[a|e0] s1] eqn:Es.
  - apply Hk.
  - intros [= <- <-]. eapply Hm, Es.
Qed.

Lemma raises_only_deref img off :
  raises_only (fun e => e = InvalidAccess) (deref img off : M T).
Proof.
  intros s e s'. unfold deref.
  destruct (data img !! off); unfold ret, raise; congruence.
Qed.

Lemma raises_only_setComponent v i idx :
  raises_only (fun e => e = InvalidAccess) (setComponent v i idx : M unit).
Proof.
  intros s e s'. unfold setComponent.
  destruct (idx <? numBands (dest s))%nat; congruence.
Qed.

Lemma raises_only_tensorAssembly F w h dul :
  raises_only (fun e => e = InvalidAccess) (tensorAssembly F w h dul : M unit).
Proof.
  assert (Hpix : forall d off,
             raises_only (fun e => e = InvalidAccess)
               (assemble_pixel F d off : M unit)).
  { intros d off. unfold assemble_pixel.
    repeat first
      [ apply raises_only_deref | apply raises_only_setComponent
      | apply raises_only_bind; [ | intros ? ] ]. }
  assert (Hrow : forall todo d off,
             raises_only (fun e => e = InvalidAccess)
               (row_loop F todo d off : M nat)).
  { induction todo as [|todo IH]; intros d off; cbn.
    - apply raises_only_ret.
    - apply raises_only_bind; [apply Hpix | intros _; apply IH]. }
  assert (Himg : forall todo d off,
             raises_only (fun e => e = InvalidAccess)
               (image_loop F w todo d off : M nat)).
  { induction todo as [|todo IH]; intros d off; cbn.
    - apply raises_only_ret.
    - apply raises_only_bind; [apply Hrow | intros off'; apply IH]. }
  unfold tensorAssembly.
  apply raises_only_bind; [apply Himg | intros _; apply raises_only_ret].
Qed.

(** ** The whole function *)

Lemma gradientEnergyTensor_bands ul lr src dul d dk sk :
  numBands d = 3%nat ->
  gradientEnergyTensor convolveImage ul lr src dul d dk sk =
  bind (derivativeCascade convolveImage (srcIterRange ul lr src)
          (pos_x lr - pos_x ul) (pos_y lr - pos_y ul) dk sk)
       (fun F => tensorAssembly F (pos_x lr - pos_x ul) (pos_y lr - pos_y ul)
                   dul)
       {| dest := d; calls := [] |}.
Proof.
  intros Hb. unfold gradientEnergyTensor, bind at 1, accessor_size. cbn.
  rewrite Hb. reflexivity.
Qed.

Lemma gradientEnergyTensor_not_bands ul lr src dul d dk sk :
  numBands d <> 3%nat ->
  gradientEnergyTensor convolveImage ul lr src dul d dk sk =
  (Raised (PreconditionFailure bands_message), {| dest := d; calls := [] |}).
Proof.
  intros Hb. unfold gradientEnergyTensor, bind at 1, accessor_size. cbn.
  destruct (Nat.eqb_spec (numBands d) 3); [contradiction | reflexivity].
Qed.

(** When the cascade has returned and the primitive keeps extents, the
    function returns and every pixel of the window holds its tensor. *)
Lemma gradientEnergyTensor_Done ul lr src dul d dk sk F s1 :
  keeps_extent convolveImage ->
  numBands d = 3%nat ->
  derivativeCascade convolveImage (srcIterRange ul lr src)
    (pos_x lr - pos_x ul) (pos_y lr - pos_y ul) dk sk
    {| dest := d; calls := [] |} = (Done F, s1) ->
  exists s',
    gradientEnergyTensor convolveImage ul lr src dul d dk sk = (Done tt, s') /\
    numBands (dest s') = 3%nat /\
    calls s' = cascade_calls dk sk /\
    fields_have_extent (pos_x lr - pos_x ul) (pos_y lr - pos_y ul) F /\
    (forall col row idx,
       (col < Z.to_nat (pos_x lr - pos_x ul))%nat ->
       (row < Z.to_nat (pos_y lr - pos_y ul))%nat -> (idx < 3)%nat ->
       exists v,
         samples F (row * Z.to_nat (pos_x lr - pos_x ul) + col) = Some v /\
         component (dest s') (pos_x dul + Z.of_nat col)
                   (pos_y dul + Z.of_nat row) idx
         = tensor v idx) /\
    (forall px py idx,
       ~ in_window dul (pos_x lr - pos_x ul) (pos_y lr - pos_y ul) px py ->
       component (dest s') px py idx = component d px py idx).
Proof.
  intros Hk Hb Hcas.
  destruct (derivativeCascade_Done _ _ _ _ _ _ _ _ Hcas) as (Hspec & Hs1).
  cbn [dest calls app] in Hs1. subst s1.
  pose proof (spec_cascade_extent _ _ _ _ _ _ Hk Hspec) as Hext.
  set (w := pos_x lr - pos_x ul) in *. set (h := pos_y lr - pos_y ul) in *.
  destruct (tensorAssembly_Done F w h dul
              {| dest := d; calls := cascade_calls dk sk |})
    as (s' & Hasm & Hb' & Hc & Hval & Hframe).
  { exact Hb. }
  { intros off Hoff. eapply fields_have_extent_samples; eassumption. }
  exists s'. rewrite gradientEnergyTensor_bands by exact Hb.
  rewrite (bind_Done _ _ _ _ _ Hcas). fold w h. rewrite Hasm.
  split; [reflexivity | ]. split; [exact Hb' | ]. split; [exact Hc | ].
  split; [exact Hext | ]. split; [ | exact Hframe].
  intros col row idx Hcol Hrow Hidx.
  destruct (fields_have_extent_samples w h F (row * Z.to_nat w + col) Hext)
    as [v Hv]; [nia | ].
  exists v. split; [exact Hv | ]. now apply Hval.
Qed.

(** Whatever the outcome, only the window is written. *)
Lemma gradientEnergyTensor_frame ul lr src dul d dk sk px py idx :
  ~ in_window dul (pos_x lr - pos_x ul) (pos_y lr - pos_y ul) px py ->
  component
    (dest (snd (gradientEnergyTensor convolveImage ul lr src dul d dk sk)))
    px py idx
  = component d px py idx.
Proof.
  intros Hout.
  destruct (decide (numBands d = 3%nat)) as [Hb|Hb].
  - rewrite gradientEnergyTensor_bands by exact Hb. unfold bind.
    pose proof (derivativeCascade_dest (srcIterRange ul lr src)
                  (pos_x lr - pos_x ul) (pos_y lr - pos_y ul) dk sk
                  {| dest := d; calls := [] |}) as Hd.
    destruct (derivativeCascade _ _ _ _ _ _ _) as [[F|e] s1]; cbn in Hd.
    + destruct (writes_within_tensorAssembly
                  F (pos_x lr - pos_x ul) (pos_y lr - pos_y ul) dul s1)
        as (_ & _ & Hframe).
      rewrite Hframe by exact Hout. now rewrite Hd.
    + cbn. now rewrite Hd.
  - now rewrite gradientEnergyTensor_not_bands.
Qed.

(** ** Constant and zero images *)

Lemma row_constant (g : nat -> T) (c : T) (n : nat) :
  forall start,
    (forall col, (start <= col < start + n)%nat -> g col = c) ->
    map g (seq start n) = replicate n c.
Proof.
  induction n as [|n IH]; intros start Hg; cbn.
  - reflexivity.
  - rewrite Hg by lia. f_equal. apply IH. intros col Hcol. apply Hg. lia.
Qed.

Lemma rows_constant (f : nat -> nat -> T) (c : T) (n : nat) (rows : list nat) :
  (forall row col, row ∈ rows -> (col < n)%nat -> f row col = c) ->
  flat_map (fun row => map (f row) (seq 0 n)) rows
  = replicate (n * length rows) c.
Proof.
  induction rows as [|r rows IH]; intros Hf; cbn.
  - now rewrite Nat.mul_0_r.
  - rewrite IH by (intros; apply Hf; [now right | assumption]).
    replace (n * S (length rows))%nat with (n + n * length rows)%nat by lia.
    rewrite replicate_add. f_equal.
    apply row_constant. intros col Hcol. apply Hf; [now left | lia].
Qed.

Lemma srcIterRange_constant ul lr (src : SrcAccessor T) (c : T) :
  (forall i,
     in_window ul (pos_x lr - pos_x ul) (pos_y lr - pos_y ul)
       (pos_x i) (pos_y i) -> src i = c) ->
  srcIterRange ul lr src
  = constant_image (pos_x lr - pos_x ul) (pos_y lr - pos_y ul) c.
Proof.
  intros Hc. unfold srcIterRange, constant_image. f_equal.
  rewrite (rows_constant
             (fun row col =>
                src {| pos_x := pos_x ul + Z.of_nat col;
                       pos_y := pos_y ul + Z.of_nat row |}) c).
  - now rewrite length_seq.
  - intros row col Hrow Hcol. apply Hc.
    apply elem_of_seq in Hrow. unfold in_window. cbn. lia.
Qed.

Lemma combineTwoImages_zero `{!RealZeroLaws T} w h :
  combineTwoImages (constant_image w h r_zero) (constant_image w h r_zero)
    (BasicImage_new w h) r_add
  = constant_image w h (r_zero : T).
Proof.
  unfold combineTwoImages, constant_image, BasicImage_new. cbn. f_equal.
  apply list_eq. intros i. rewrite list_lookup_imap.
  destruct (decide (i < Z.to_nat w * Z.to_nat h)%nat) as [Hi|Hi].
  - rewrite !(lookup_replicate_2 _ _ i Hi). cbn. now rewrite r_add_0_0.
  - assert (Hn : replicate (Z.to_nat w * Z.to_nat h) (r_zero : T) !! i = None)
      by (apply lookup_replicate_None; lia).
    now rewrite !Hn.
Qed.

Lemma tensor_zero `{!RealZeroLaws T} idx :
  tensor {| s_gx := r_zero; s_gy := r_zero; s_gxx := r_zero;
            s_gxy := r_zero; s_gyy := r_zero; s_gx3 := r_zero;
            s_gy3 := r_zero |} idx
  = (r_zero : T).
Proof.
  destruct idx as [|[|idx]]; cbn; unfold t11, t12, t22, sq;
    repeat first [ rewrite r_neg_0 | rewrite r_mul_0_0 | rewrite r_mul_half_0
                 | rewrite r_add_0_0 | rewrite r_sub_0_0 ];
    reflexivity.
Qed.

Lemma zero_fields_samples w h (off : nat) :
  (off < Z.to_nat w * Z.to_nat h)%nat ->
  samples (zero_fields w h) off
  = Some {| s_gx := r_zero; s_gy := r_zero; s_gxx := r_zero;
            s_gxy := r_zero; s_gyy := r_zero; s_gx3 := r_zero;
            s_gy3 := (r_zero : T) |}.
Proof.
  intros Hoff. unfold samples, zero_fields, constant_image. cbn.
  now rewrite lookup_replicate_2 by exact Hoff.
Qed.

(** When both first derivatives of the input vanish and the zero image is
    filtered to the zero image, every field and every band is zero. *)
Lemma flat_input_zero_tensor `{!RealZeroLaws T} ul lr (src : SrcAccessor T)
    dul (d : DestAccessor T) dk sk (c : T) :
  let w := pos_x lr - pos_x ul in
  let h := pos_y lr - pos_y ul in
  numBands d = 3%nat ->
  (forall i, in_window ul w h (pos_x i) (pos_y i) -> src i = c) ->
  annihilates_constant convolveImage w h c dk sk ->
  annihilates_constant convolveImage w h c sk dk ->
  annihilates_constant convolveImage w h r_zero dk sk ->
  annihilates_constant convolveImage w h r_zero sk dk ->
  derivativeCascade convolveImage (srcIterRange ul lr src) w h dk sk
    {| dest := d; calls := [] |}
  = (Done (zero_fields w h), {| dest := d; calls := cascade_calls dk sk |}) /\
  let r := gradientEnergyTensor convolveImage ul lr src dul d dk sk in
  fst r = Done tt /\
  forall px py idx, in_window dul w h px py -> (idx < 3)%nat ->
    component (dest (snd r)) px py idx = r_zero.
Proof.
  intros w h Hb Hsrc Hc1 Hc2 Hz1 Hz2.
  assert (Hspec : spec_cascade convolveImage (srcIterRange ul lr src) w h
                    dk sk (zero_fields w h)).
  { rewrite (srcIterRange_constant ul lr src c Hsrc). fold w h.
    unfold spec_cascade, zero_fields. cbn.
    rewrite combineTwoImages_zero.
    repeat split; assumption. }
  pose proof (spec_cascade_run _ _ _ _ _ {| dest := d; calls := [] |} _ Hspec)
    as Hcas.
  cbn [dest calls app] in Hcas. split; [exact Hcas | ].
  destruct (tensorAssembly_Done (zero_fields w h) w h dul
              {| dest := d; calls := cascade_calls dk sk |} Hb)
    as (s' & Hasm & _ & _ & Hval & _).
  { intros off Hoff. rewrite zero_fields_samples by exact Hoff. eauto. }
  intros r. subst r. rewrite gradientEnergyTensor_bands by exact Hb.
  fold w h. rewrite (bind_Done _ _ _ _ _ Hcas), Hasm. cbn [fst snd].
  split; [reflexivity | ].
  intros px py idx [Hx Hy] Hidx.
  set (col := Z.to_nat (px - pos_x dul)). set (row := Z.to_nat (py - pos_y dul)).
  assert (Hcol : (col < Z.to_nat w)%nat) by lia.
  assert (Hrow : (row < Z.to_nat h)%nat) by lia.
  assert (Hoff : (row * Z.to_nat w + col < Z.to_nat w * Z.to_nat h)%nat) by nia.
  replace px with (pos_x dul + Z.of_nat col) by lia.
  replace py with (pos_y dul + Z.of_nat row) by lia.
  rewrite (Hval col row _ idx Hcol Hrow (zero_fields_samples w h _ Hoff) Hidx).
  apply tensor_zero.
Qed.

(** ** Empty regions *)

Lemma image_loop_empty (F : Fields T) w todo :
  Z.to_nat w = 0%nat ->
  forall d off (s : World),
    image_loop (CollaboratorError := CollaboratorError) F w todo d off s
    = (Done off, s).
Proof.
  intros Hw. induction todo as [|todo IH]; intros d off s; cbn.
  - reflexivity.
  - rewrite Hw. cbn. unfold bind, ret. apply IH.
Qed.

Lemma tensorAssembly_empty (F : Fields T) w h dul (s : World) :
  w <= 0 \/ h <= 0 ->
  tensorAssembly (CollaboratorError := CollaboratorError) F w h dul s
  = (Done tt, s).
Proof.
  intros Hwh. unfold tensorAssembly, bind.
  destruct (decide (h <= 0)) as [Hh|Hh].
  - replace (Z.to_nat h) with 0%nat by lia. reflexivity.
  - rewrite image_loop_empty by lia. reflexivity.
Qed.

Lemma oblivious_accessor_size i : oblivious (accessor_size i : M nat).
Proof.
  intros s t Hb. unfold accessor_size. cbn. rewrite Hb.
  repeat split; [ | now right]. exists []. now rewrite !app_nil_r.
Qed.

(** The body of [gradientEnergyTensor] never reads the destination. *)
Lemma oblivious_gradientEnergyTensor ul lr (src : SrcAccessor T) dul dk sk
    (d1 d2 : DestAccessor T) :
  numBands d1 = numBands d2 ->
  let r1 := gradientEnergyTensor convolveImage ul lr src dul d1 dk sk in
  let r2 := gradientEnergyTensor convolveImage ul lr src dul d2 dk sk in
  fst r1 = fst r2 /\
  numBands (dest (snd r1)) = numBands d1 /\
  calls (snd r1) = calls (snd r2) /\
  forall px py idx,
    component (dest (snd r1)) px py idx = component (dest (snd r2)) px py idx \/
    (component (dest (snd r1)) px py idx = component d1 px py idx /\
     component (dest (snd r2)) px py idx = component d2 px py idx).
Proof.
  intros Hb r1 r2. subst r1 r2. unfold gradientEnergyTensor.
  match goal with
  | |- context [ ?m {| dest := d1; calls := [] |} ] =>
      assert (Hm : oblivious m)
  end.
  { apply oblivious_bind; [apply oblivious_accessor_size | intros bands].
    apply oblivious_bind; [apply oblivious_vigra_precondition | intros _].
    cbv zeta.
    apply oblivious_bind; [apply oblivious_derivativeCascade | intros F].
    apply oblivious_tensorAssembly. }
  destruct (Hm {| dest := d1; calls := [] |} {| dest := d2; calls := [] |} Hb)
    as (Hr & Hn & (l & Hc1 & Hc2) & Hp).
  split; [exact Hr | ]. split; [exact Hn | ]. split; [ | exact Hp].
  rewrite Hc1, Hc2. reflexivity.
Qed.

(** The region handed to the convolution holds the pixels of the window
    and nothing else of the source. *)
Lemma srcIterRange_ext ul lr (src1 src2 : SrcAccessor T) :
  (forall i,
     in_window ul (pos_x lr - pos_x ul) (pos_y lr - pos_y ul)
       (pos_x i) (pos_y i) -> src1 i = src2 i) ->
  srcIterRange ul lr src1 = srcIterRange ul lr src2.
Proof.
  intros Hsrc. unfold srcIterRange. f_equal.
  assert (Hrows : forall rows,
             (forall row, In row rows ->
                (row < Z.to_nat (pos_y lr - pos_y ul))%nat) ->
             flat_map
               (fun row : nat =>
                  map (fun col : nat =>
                         src1 {| pos_x := pos_x ul + Z.of_nat col;
                                 pos_y := pos_y ul + Z.of_nat row |})
                      (seq 0 (Z.to_nat (pos_x lr - pos_x ul)))) rows
             = flat_map
                 (fun row : nat =>
                    map (fun col : nat =>
                           src2 {| pos_x := pos_x ul + Z.of_nat col;
                                   pos_y := pos_y ul + Z.of_nat row |})
                        (seq 0 (Z.to_nat (pos_x lr - pos_x ul)))) rows).
  { induction rows as [|row rows IH]; intros Hin; cbn.
    - reflexivity.
    - rewrite IH by (intros; apply Hin; now right). f_equal.
      apply map_ext_in. intros col Hcol. apply in_seq in Hcol.
      apply Hsrc. specialize (Hin row (or_introl eq_refl)).
      unfold in_window. cbn. lia. }
  apply Hrows. intros row Hrow. apply in_seq in Hrow. lia.
Qed.

(** * The claims *)

(** C1: for every pixel (col, row) of the W x H region, the bands 0, 1 and 2
    that [gradientEnergyTensor] writes at that pixel of the destination are
    gxx^2 + gxy^2 - gx gx3, then -gxy (gxx + gyy) + 0.5 (gx gy3 + gy gx3),
    then gxy^2 + gyy^2 - gy gy3, where gx, gy, gxx, gxy, gyy, gx3, gy3 are
    the pixels at the same coordinates of the fields that the derivative
    cascade produced. *)
Theorem C1_tensor_formula ul lr (src : SrcAccessor T) dul (d : DestAccessor T)
    dk sk F s1 :
  keeps_extent convolveImage ->
  numBands d = 3%nat ->
  derivativeCascade convolveImage (srcIterRange ul lr src)
    (pos_x lr - pos_x ul) (pos_y lr - pos_y ul) dk sk
    {| dest := d; calls := [] |} = (Done F, s1) ->
  forall col row : nat,
    Z.of_nat col < pos_x lr - pos_x ul ->
    Z.of_nat row < pos_y lr - pos_y ul ->
    exists vgx vgy vgxx vgxy vgyy vgx3 vgy3 : T,
      pixel (gx F) col row = Some vgx /\
      pixel (gy F) col row = Some vgy /\
      pixel (gxx F) col row = Some vgxx /\
      pixel (gxy F) col row = Some vgxy /\
      pixel (gyy F) col row = Some vgyy /\
      pixel (gx3 F) col row = Some vgx3 /\
      pixel (gy3 F) col row = Some vgy3 /\
      let r := gradientEnergyTensor convolveImage ul lr src dul d dk sk in
      let px := pos_x dul + Z.of_nat col in
      let py := pos_y dul + Z.of_nat row in
      fst r = Done tt /\
      component (dest (snd r)) px py 0
      = (vgxx * vgxx + vgxy * vgxy - vgx * vgx3)%tmp /\
      component (dest (snd r)) px py 1
      = (- vgxy * (vgxx + vgyy)
         + r_half * (vgx * vgy3 + vgy * vgx3))%tmp /\
      component (dest (snd r)) px py 2
      = (vgxy * vgxy + vgyy * vgyy - vgy * vgy3)%tmp.
Proof.
  intros Hk Hb Hcas col row Hcol Hrow.
  destruct (gradientEnergyTensor_Done ul lr src dul d dk sk F s1 Hk Hb Hcas)
    as (s' & Hrun & _ & _ & Hext & Hval & _).
  set (w := pos_x lr - pos_x ul) in *. set (h := pos_y lr - pos_y ul) in *.
  assert (Hc : (col < Z.to_nat w)%nat) by lia.
  assert (Hr : (row < Z.to_nat h)%nat) by lia.
  destruct (Hval col row 0%nat Hc Hr ltac:(lia)) as (v & Hv & H0).
  destruct (Hval col row 1%nat Hc Hr ltac:(lia)) as (v1 & Hv1 & H1).
  destruct (Hval col row 2%nat Hc Hr ltac:(lia)) as (v2 & Hv2 & H2).
  rewrite Hv in Hv1, Hv2. injection Hv1 as <-. injection Hv2 as <-.
  destruct (samples_Some _ _ _ Hv)
    as (Hgx & Hgy & Hgxx & Hgxy & Hgyy & Hgx3 & Hgy3).
  destruct Hext as (Egx & Egy & Egxx & Egxy & Egyy & _ & Egx3 & Egy3).
  exists (s_gx v), (s_gy v), (s_gxx v), (s_gxy v), (s_gyy v), (s_gx3 v),
    (s_gy3 v).
  rewrite (has_extent_pixel w h (gx F)), (has_extent_pixel w h (gy F)),
    (has_extent_pixel w h (gxx F)), (has_extent_pixel w h (gxy F)),
    (has_extent_pixel w h (gyy F)), (has_extent_pixel w h (gx3 F)),
    (has_extent_pixel w h (gy3 F)) by assumption.
  rewrite Hrun. cbn [fst snd].
  repeat (split; [assumption || reflexivity | ]). exact H2.
Qed.

(** C2: the fields are computed in the fixed order gx, gy, gxx, gxy, gyy,
    laplace, gx3, gy3, each filtered from the image and with the kernels
    that the specification lists (the derivative kernel along the axis of
    the field, the smoothing kernel along the other one), and laplace is the
    point-wise sum of gxx and gyy; this holds for every input image and
    every pair of kernels. *)
Theorem C2_cascade_order (img : BasicImage T) w h D S :
  (forall s F s',
     derivativeCascade convolveImage img w h D S s = (Done F, s') <->
     spec_cascade convolveImage img w h D S F /\
     s' = {| dest := dest s; calls := calls s ++ cascade_calls D S |}) /\
  (forall F,
     spec_cascade convolveImage img w h D S F ->
     forall (off : nat) (a b : T),
       (off < Z.to_nat w * Z.to_nat h)%nat ->
       data (gxx F) !! off = Some a -> data (gyy F) !! off = Some b ->
       data (laplace F) !! off = Some (a + b)%tmp) /\
  (forall ul lr (src : SrcAccessor T) dul (d : DestAccessor T),
     img = srcIterRange ul lr src ->
     w = pos_x lr - pos_x ul -> h = pos_y lr - pos_y ul ->
     let r := gradientEnergyTensor convolveImage ul lr src dul d D S in
     fst r = Done tt ->
     calls (snd r) = cascade_calls D S /\
     exists F, spec_cascade convolveImage img w h D S F).
Proof.
  split; [ | split].
  - intros s F s'. split.
    + apply derivativeCascade_Done.
    + intros [Hspec ->]. now apply spec_cascade_run.
  - intros F (_ & _ & _ & _ & _ & Hlap & _) off a b Hoff Ha Hb.
    rewrite Hlap. unfold combineTwoImages, BasicImage_new. cbn [data].
    rewrite list_lookup_imap, lookup_replicate_2 by exact Hoff.
    cbn. now rewrite Ha, Hb.
  - intros ul lr src dul d -> -> -> r Hr. subst r.
    destruct (decide (numBands d = 3%nat)) as [Hb|Hb].
    + rewrite gradientEnergyTensor_bands in Hr |- * by exact Hb.
      unfold bind in Hr |- *.
      destruct (derivativeCascade _ _ _ _ _ _ _) as [[F|e] s1] eqn:Hcas;
        [ | discriminate].
      destruct (derivativeCascade_Done _ _ _ _ _ _ _ _ Hcas) as (Hspec & ->).
      destruct (writes_within_tensorAssembly F (pos_x lr - pos_x ul)
                  (pos_y lr - pos_y ul) dul
                  {| dest := d; calls := [] ++ cascade_calls D S |})
        as (_ & Hc & _).
      cbn [dest calls] in *. rewrite Hc. split; [reflexivity | now exists F].
    + rewrite gradientEnergyTensor_not_bands in Hr by exact Hb. discriminate.
Qed.

(** C3: [gradientEnergyTensor] raises the precondition failure if and only
    if the destination does not have exactly 3 bands; when it does, no
    primitive has been called and the destination is as it was. *)
Theorem C3_band_count_precondition ul lr (src : SrcAccessor T) dul
    (d : DestAccessor T) dk sk :
  let r := gradientEnergyTensor convolveImage ul lr src dul d dk sk in
  ((exists msg, fst r = Raised (PreconditionFailure msg)) <->
   numBands d <> 3%nat) /\
  (numBands d <> 3%nat ->
   r = (Raised (PreconditionFailure bands_message),
        {| dest := d; calls := [] |})).
Proof.
  intros r. subst r. split; [split | ].
  - intros [msg Hr] Hb.
    rewrite gradientEnergyTensor_bands in Hr by exact Hb. unfold bind in Hr.
    destruct (derivativeCascade _ _ _ _ _ _ _) as [[F|e] s1] eqn:Hcas.
    + destruct (tensorAssembly F _ _ dul s1) as [[[]|e] s2] eqn:Hasm;
        [discriminate | ].
      apply raises_only_tensorAssembly in Hasm. cbn in Hr. congruence.
    + destruct (derivativeCascade_Raised _ _ _ _ _ _ _ _ Hcas) as [c ->].
      discriminate.
  - intros Hb. exists bands_message.
    now rewrite gradientEnergyTensor_not_bands.
  - apply gradientEnergyTensor_not_bands.
Qed.

(** C4: for an input region of W x H pixels, the region handed to the
    convolution, each of the fields gx, gy, gxx, gxy, gyy, laplace, gx3, gy3
    as allocated and as computed, and the part of the destination that is
    written all have W x H pixels: whatever the outcome no pixel outside the
    window of W x H pixels is changed, and once the cascade has returned,
    the call returns and every pixel of that window holds its tensor. *)
Theorem C4_dimensions ul lr (src : SrcAccessor T) dul (d : DestAccessor T)
    dk sk :
  let w := pos_x lr - pos_x ul in
  let h := pos_y lr - pos_y ul in
  keeps_extent convolveImage ->
  has_extent w h (srcIterRange ul lr src) /\
  has_extent w h (BasicImage_new (T := T) w h) /\
  (forall s F s',
     derivativeCascade convolveImage (srcIterRange ul lr src) w h dk sk s
     = (Done F, s') ->
     fields_have_extent w h F) /\
  let r := gradientEnergyTensor convolveImage ul lr src dul d dk sk in
  (forall px py idx, ~ in_window dul w h px py ->
     component (dest (snd r)) px py idx = component d px py idx) /\
  (numBands d = 3%nat ->
   forall F s1,
     derivativeCascade convolveImage (srcIterRange ul lr src) w h dk sk
       {| dest := d; calls := [] |} = (Done F, s1) ->
     fst r = Done tt /\
     forall col row idx,
       (col < Z.to_nat w)%nat -> (row < Z.to_nat h)%nat -> (idx < 3)%nat ->
       exists v,
         samples F (row * Z.to_nat w + col) = Some v /\
         component (dest (snd r)) (pos_x dul + Z.of_nat col)
                   (pos_y dul + Z.of_nat row) idx
         = tensor v idx).
Proof.
  intros w h Hk.
  split; [apply srcIterRange_extent | ].
  split; [apply BasicImage_new_extent | ].
  split.
  { intros s F s' Hcas. apply derivativeCascade_Done in Hcas as [Hspec _].
    eapply spec_cascade_extent; eassumption. }
  intros r. split.
  { intros px py idx Hout. now apply gradientEnergyTensor_frame. }
  intros Hb F s1 Hcas. subst r.
  destruct (gradientEnergyTensor_Done ul lr src dul d dk sk F s1 Hk Hb Hcas)
    as (s' & Hrun & _ & _ & _ & Hval & _).
  rewrite Hrun. split; [reflexivity | exact Hval].
Qed.

(** C5: for an input that is zero on the whole region, kernels that the
    convolution accepts and a destination of 3 bands, every field of the
    cascade is zero everywhere and every band of every pixel of the window
    is zero. *)
Theorem C5_zero_input `{!RealZeroLaws T} ul lr (src : SrcAccessor T) dul
    (d : DestAccessor T) dk sk :
  let w := pos_x lr - pos_x ul in
  let h := pos_y lr - pos_y ul in
  numBands d = 3%nat ->
  (forall i, in_window ul w h (pos_x i) (pos_y i) -> src i = r_zero) ->
  annihilates_constant convolveImage w h r_zero dk sk ->
  annihilates_constant convolveImage w h r_zero sk dk ->
  derivativeCascade convolveImage (srcIterRange ul lr src) w h dk sk
    {| dest := d; calls := [] |}
  = (Done (zero_fields w h), {| dest := d; calls := cascade_calls dk sk |}) /\
  let r := gradientEnergyTensor convolveImage ul lr src dul d dk sk in
  fst r = Done tt /\
  forall px py idx, in_window dul w h px py -> (idx < 3)%nat ->
    component (dest (snd r)) px py idx = r_zero.
Proof.
  intros w h Hb Hsrc Hz1 Hz2.
  now apply (flat_input_zero_tensor ul lr src dul d dk sk r_zero).
Qed.

(** C6: for an input that has the same value on the whole region, when the
    derivative kernel annihilates constants (filtering a constant image with
    the derivative kernel along either axis gives zero), gx and gy are zero,
    so are gxx, gxy, gyy, laplace, gx3 and gy3, and every band of every pixel
    of the window is zero. *)
Theorem C6_constant_input `{!RealZeroLaws T} ul lr (src : SrcAccessor T) dul
    (d : DestAccessor T) dk sk (c : T) :
  let w := pos_x lr - pos_x ul in
  let h := pos_y lr - pos_y ul in
  numBands d = 3%nat ->
  (forall i, in_window ul w h (pos_x i) (pos_y i) -> src i = c) ->
  (forall c', c' = c \/ c' = r_zero ->
     annihilates_constant convolveImage w h c' dk sk /\
     annihilates_constant convolveImage w h c' sk dk) ->
  derivativeCascade convolveImage (srcIterRange ul lr src) w h dk sk
    {| dest := d; calls := [] |}
  = (Done (zero_fields w h), {| dest := d; calls := cascade_calls dk sk |}) /\
  let r := gradientEnergyTensor convolveImage ul lr src dul d dk sk in
  fst r = Done tt /\
  forall px py idx, in_window dul w h px py -> (idx < 3)%nat ->
    component (dest (snd r)) px py idx = r_zero.
Proof.
  intros w h Hb Hsrc Hann.
  destruct (Hann c (or_introl eq_refl)) as [Hc1 Hc2].
  destruct (Hann r_zero (or_intror eq_refl)) as [Hz1 Hz2].
  now apply (flat_input_zero_tensor ul lr src dul d dk sk c).
Qed.

(** C7: the outcome of [gradientEnergyTensor] and the pixels it writes are
    a function of the input image and the two kernels: they depend on the
    source through the pixels of the region only, and not on what the
    destination held; nothing is kept from one invocation to the next, and
    running the tensor assembly again on the same fields writes the same
    image again. *)
Theorem C7_pure_and_idempotent :
  (forall ul lr (src1 src2 : SrcAccessor T) dul dk sk (d : DestAccessor T),
     (forall i,
        in_window ul (pos_x lr - pos_x ul) (pos_y lr - pos_y ul)
          (pos_x i) (pos_y i) -> src1 i = src2 i) ->
     gradientEnergyTensor convolveImage ul lr src1 dul d dk sk
     = gradientEnergyTensor convolveImage ul lr src2 dul d dk sk) /\
  (forall ul lr (src : SrcAccessor T) dul dk sk (d1 d2 : DestAccessor T),
     numBands d1 = numBands d2 ->
     let r1 := gradientEnergyTensor convolveImage ul lr src dul d1 dk sk in
     let r2 := gradientEnergyTensor convolveImage ul lr src dul d2 dk sk in
     fst r1 = fst r2 /\ calls (snd r1) = calls (snd r2) /\
     forall px py idx,
       component (dest (snd r1)) px py idx
       = component (dest (snd r2)) px py idx \/
       (component (dest (snd r1)) px py idx = component d1 px py idx /\
        component (dest (snd r2)) px py idx = component d2 px py idx)) /\
  (forall (F : Fields T) w h dul (s : World),
     let r1 := tensorAssembly (CollaboratorError := CollaboratorError)
                 F w h dul s in
     let r2 := tensorAssembly (CollaboratorError := CollaboratorError)
                 F w h dul (snd r1) in
     fst r2 = fst r1 /\ calls (snd r2) = calls (snd r1) /\
     same_image (dest (snd r2)) (dest (snd r1))) /\
  (forall ul lr (src : SrcAccessor T) dul dk sk (d : DestAccessor T),
     let r1 := gradientEnergyTensor convolveImage ul lr src dul d dk sk in
     let r2 := gradientEnergyTensor convolveImage ul lr src dul
                 (dest (snd r1)) dk sk in
     fst r2 = fst r1 /\ calls (snd r2) = calls (snd r1) /\
     same_image (dest (snd r2)) (dest (snd r1))).
Proof.
  split; [ | split; [ | split]].
  - intros ul lr src1 src2 dul dk sk d Hsrc. unfold gradientEnergyTensor.
    now rewrite (srcIterRange_ext ul lr src1 src2 Hsrc).
  - intros ul lr src dul dk sk d1 d2 Hb r1 r2.
    destruct (oblivious_gradientEnergyTensor ul lr src dul dk sk d1 d2 Hb)
      as (Hr & _ & Hc & Hp).
    split; [exact Hr | ]. split; [exact Hc | exact Hp].
  - intros F w h dul s r1 r2. subst r1 r2.
    set (s1 := snd (tensorAssembly F w h dul s)).
    destruct (oblivious_tensorAssembly F w h dul s s1) as (Hr & Hn & _ & Hp).
    { destruct (writes_within_tensorAssembly F w h dul s) as (Hn & _).
      symmetry. exact Hn. }
    destruct (writes_within_tensorAssembly F w h dul s1) as (Hn1 & Hc1 & _).
    fold s1 in Hr, Hn, Hp. split; [now rewrite Hr | ]. split; [exact Hc1 | ].
    split; [exact Hn1 | ].
    intros px py idx.
    destruct (Hp px py idx) as [He | [_ Hu]]; [now rewrite He | exact Hu].
  - intros ul lr src dul dk sk d r1 r2.
    destruct (oblivious_gradientEnergyTensor ul lr src dul dk sk d
                (dest (snd r1))) as (Hr & Hn & Hc & Hp).
    { destruct (oblivious_gradientEnergyTensor ul lr src dul dk sk d d
                  eq_refl) as (_ & Hn & _). symmetry. exact Hn. }
    fold r1 r2 in Hr, Hn, Hc, Hp.
    split; [now rewrite Hr | ]. split; [now rewrite Hc | ].
    split.
    + destruct (oblivious_gradientEnergyTensor ul lr src dul dk sk
                  (dest (snd r1)) (dest (snd r1)) eq_refl) as (_ & Hn2 & _).
      exact Hn2.
    + intros px py idx.
      destruct (Hp px py idx) as [He | [_ Hu]]; [now rewrite He | exact Hu].
Qed.

(** C8: once the destination has 3 bands, the tensor assembly of fields of
    W x H pixels cannot fail: for all values of the fields it returns
    normally, having assigned its tensor to every band of every pixel of
    the window and nothing else. *)
Theorem C8_assembly_total (F : Fields T) w h dul (s : World) :
  numBands (dest s) = 3%nat ->
  fields_have_extent w h F ->
  exists s',
    tensorAssembly (CollaboratorError := CollaboratorError) F w h dul s
    = (Done tt, s') /\
    numBands (dest s') = 3%nat /\
    calls s' = calls s /\
    (forall col row idx,
       (col < Z.to_nat w)%nat -> (row < Z.to_nat h)%nat -> (idx < 3)%nat ->
       exists v,
         samples F (row * Z.to_nat w + col) = Some v /\
         component (dest s') (pos_x dul + Z.of_nat col)
                   (pos_y dul + Z.of_nat row) idx
         = tensor v idx) /\
    (forall px py idx, ~ in_window dul w h px py ->
       component (dest s') px py idx = component (dest s) px py idx).
Proof.
  intros Hb Hext.
  destruct (tensorAssembly_Done F w h dul s Hb)
    as (s' & Hasm & Hb' & Hc & Hval & Hframe).
  { intros off Hoff. eapply fields_have_extent_samples; eassumption. }
  exists s'. split; [exact Hasm | ]. split; [exact Hb' | ].
  split; [exact Hc | ]. split; [ | exact Hframe].
  intros col row idx Hcol Hrow Hidx.
  destruct (fields_have_extent_samples w h F (row * Z.to_nat w + col) Hext)
    as [v Hv]; [nia | ].
  exists v. split; [exact Hv | ]. now apply Hval.
Qed.

(** C9: the overload that takes the argument objects
    triple(srcUpperLeft, srcLowerRight, srcAccessor) and
    pair(destUpperLeft, destAccessor) has the same outcome, final
    destination and calls as the overload with explicit arguments. *)
Theorem C9_argument_objects :
  (forall ul lr (sa : SrcAccessor T) dul (da : DestAccessor T) dk sk,
     gradientEnergyTensor_args convolveImage (mk_triple ul lr sa)
       (make_pair dul da) dk sk
     = gradientEnergyTensor convolveImage ul lr sa dul da dk sk) /\
  (forall (src : triple ImageIterator ImageIterator (SrcAccessor T))
          (dst : std_pair ImageIterator (DestAccessor T)) dk sk,
     gradientEnergyTensor_args convolveImage src dst dk sk
     = gradientEnergyTensor convolveImage (first3 src) (second3 src)
         (third3 src) (first dst) (second dst) dk sk).
Proof. split; reflexivity. Qed.

(** C10, as amended: for an empty input region and a destination of 3
    bands, [gradientEnergyTensor] raises no error of its own and writes no
    pixel: the destination is as it was, whether the call returns or an
    error of the convolution is passed on; it returns exactly when the
    cascade does. *)
Theorem C10_empty_region ul lr (src : SrcAccessor T) dul (d : DestAccessor T)
    dk sk :
  pos_x lr <= pos_x ul \/ pos_y lr <= pos_y ul ->
  numBands d = 3%nat ->
  let r := gradientEnergyTensor convolveImage ul lr src dul d dk sk in
  dest (snd r) = d /\
  (fst r = Done tt \/ exists c, fst r = Raised (Propagated c)) /\
  (fst r = Done tt <->
   exists F s1,
     derivativeCascade convolveImage (srcIterRange ul lr src)
       (pos_x lr - pos_x ul) (pos_y lr - pos_y ul) dk sk
       {| dest := d; calls := [] |} = (Done F, s1)).
Proof.
  intros Hempty Hb r. subst r.
  rewrite gradientEnergyTensor_bands by exact Hb. unfold bind.
  pose proof (derivativeCascade_dest (srcIterRange ul lr src)
                (pos_x lr - pos_x ul) (pos_y lr - pos_y ul) dk sk
                {| dest := d; calls := [] |}) as Hd.
  destruct (derivativeCascade _ _ _ _ _ _ _) as [[F|e] s1] eqn:Hcas;
    cbn [fst snd dest] in Hd.
  - rewrite tensorAssembly_empty by lia. cbn [fst snd].
    split; [exact Hd | ]. split; [now left | ].
    split; [now exists F, s1 | reflexivity].
  - destruct (derivativeCascade_Raised _ _ _ _ _ _ _ _ Hcas) as [c ->].
    cbn [fst snd]. split; [exact Hd | ]. split; [right; now exists c | ].
    split; [discriminate | intros (F' & s' & Heq); discriminate].
Qed.

End Properties.

(** * The reference instance meets the assumptions *)

Module ReferenceFacts.
Import Reference.

#[export] Instance Q_RealZeroLaws : RealZeroLaws Q.
Proof. split; reflexivity. Qed.

(** In lowest terms, a product with zero is the term zero. *)
Lemma Q_mul_0_r (t : Q) : (t * r_zero)%tmp = (r_zero : Q).
Proof. cbn. change 0%Q with (Qred 0). apply Qred_complete, Qmult_0_r. Qed.

Lemma write_image_extent (src d : BasicImage Q) f :
  same_extent d (write_image src d f).
Proof. unfold same_extent, write_image. cbn. now rewrite length_imap. Qed.

Lemma convolveImage_keeps_extent : keeps_extent convolveImage.
Proof.
  intros src d kx ky d'. unfold convolveImage.
  destruct (_ || _); [discriminate | ].
  intros [= <-]. apply write_image_extent.
Qed.

(** A sum of products with zero is zero. *)
Lemma dot_zero (taps : list Q) :
  forall i f, (forall j, f j = 0%Q) -> dot taps i f = 0%Q.
Proof.
  induction taps as [|t taps IH]; intros i f Hf; cbn.
  - reflexivity.
  - rewrite Hf, (IH _ _ Hf).
    change (Qred (Qred (t * 0) + 0)) with ((t * r_zero + r_zero)%tmp : Q).
    now rewrite Q_mul_0_r, r_add_0_0.
Qed.

Lemma get_zero w h col row :
  get (constant_image w h (r_zero : Q)) col row = 0%Q.
Proof.
  unfold get, constant_image. cbn.
  destruct (nth_in_or_default
              (Z.to_nat (row * w + col))
              (replicate (Z.to_nat w * Z.to_nat h) 0%Q) 0%Q) as [Hin | ->];
    [ | reflexivity].
  apply list_elem_of_In, elem_of_replicate in Hin. apply Hin.
Qed.

(** The reference convolution takes the zero image to the zero image, for
    all kernels that are not longer than a line. *)
Lemma convolveImage_zero w h kx ky :
  Z.of_nat (length (kernel kx)) <= w ->
  Z.of_nat (length (kernel ky)) <= h ->
  annihilates_constant convolveImage w h (r_zero : Q) kx ky.
Proof.
  intros Hx Hy. unfold annihilates_constant, convolveImage.
  cbn [width height constant_image].
  destruct (Z.ltb_spec w (Z.of_nat (length (kernel kx)))); [lia | ].
  destruct (Z.ltb_spec h (Z.of_nat (length (kernel ky)))); [lia | ].
  cbn [orb]. f_equal.
  assert (Hwrite : forall src (f : Z -> Z -> Q),
             (forall col row, f col row = 0%Q) ->
             write_image src (constant_image w h (r_zero : Q)) f
             = constant_image w h r_zero).
  { intros src f Hf. unfold write_image, constant_image. cbn. f_equal.
    apply list_eq. intros i. rewrite list_lookup_imap.
    destruct (replicate _ _ !! i) as [v|] eqn:Hi; [ | reflexivity].
    apply lookup_replicate in Hi as [-> _]. cbn.
    rewrite Hf. now destruct (_ && _). }
  rewrite (Hwrite (constant_image w h r_zero)
             (convolveX kx (constant_image w h r_zero))).
  - apply (Hwrite (constant_image w h r_zero)).
    intros col row. unfold convolveY. apply dot_zero. intros j.
    destruct (border _ _ _); [apply get_zero | reflexivity].
  - intros col row. unfold convolveX. apply dot_zero. intros j.
    destruct (border _ _ _); [apply get_zero | reflexivity].
Qed.

Lemma dot_ext (taps : list Q) :
  forall i f g,
    (forall j, i <= j < i + Z.of_nat (length taps) -> f j = g j) ->
    dot taps i f = dot taps i g.
Proof.
  induction taps as [|t taps IH]; intros i f g Hfg; cbn.
  - reflexivity.
  - rewrite (Hfg i) by (cbn; lia).
    rewrite (IH (i + 1) f g); [reflexivity | ].
    intros j Hj. apply Hfg. cbn [length]. lia.
Qed.

Lemma dot_lowest_terms (taps : list Q) i f :
  dot taps i f = Qred (dot taps i f).
Proof.
  destruct taps as [|t taps]; cbn.
  - reflexivity.
  - symmetry. apply Qred_complete, Qred_correct.
Qed.

Lemma dot_constant (taps : list Q) (c : Q) :
  forall i, (dot taps i (fun _ => c) == tap_sum taps * c)%Q.
Proof.
  induction taps as [|t taps IH]; intros i.
  - cbn. ring.
  - change (dot (t :: taps) i (fun _ => c))
      with (Qred (Qred (t * c) + dot taps (i + 1) (fun _ => c))).
    change (tap_sum (t :: taps)) with (t + tap_sum taps)%Q.
    rewrite !Qred_correct, IH. ring.
Qed.

Lemma dot_constant_zero (taps : list Q) (c : Q) i :
  (tap_sum taps == 0)%Q -> dot taps i (fun _ => c) = 0%Q.
Proof.
  intros Hsum. rewrite dot_lowest_terms. change 0%Q with (Qred 0).
  apply Qred_complete. rewrite dot_constant, Hsum. ring.
Qed.

Lemma border_in_line mode n i :
  mode <> BORDER_TREATMENT_ZEROPAD -> 0 < n ->
  - (n - 1) <= i <= 2 * (n - 1) ->
  exists c, border mode n i = Some c /\ 0 <= c < n.
Proof.
  intros Hmode Hn Hi. unfold border.
  destruct (Z.leb_spec 0 i), (Z.ltb_spec i n); cbn [andb];
    destruct mode; try contradiction;
    try destruct (Z.ltb_spec i 0); eexists; (split; [reflexivity | lia]).
Qed.

Lemma get_constant w h (c : Q) col row :
  0 <= col < w -> 0 <= row < h ->
  get (constant_image w h c) col row = c.
Proof.
  intros Hcol Hrow. unfold get, constant_image. cbn.
  rewrite nth_lookup, lookup_replicate_2; [reflexivity | nia].
Qed.

Lemma write_image_constant w h (src : BasicImage Q) (c0 c : Q) f :
  width src = w -> height src = h ->
  (forall col row, 0 <= col < w -> 0 <= row < h -> f col row = c) ->
  write_image src (constant_image w h c0) f = constant_image w h c.
Proof.
  intros Hw Hh Hf. unfold write_image, constant_image. cbn. f_equal.
  apply list_eq. intros i. rewrite list_lookup_imap, Hw, Hh.
  destruct (decide (i < Z.to_nat w * Z.to_nat h)%nat) as [Hi|Hi].
  - rewrite !lookup_replicate_2 by exact Hi. cbn.
    assert (Hwpos : 0 < w) by nia.
    pose proof (Z.mod_pos_bound (Z.of_nat i) w Hwpos) as Hmod.
    assert (Hdiv : 0 <= Z.of_nat i / w < h).
    { split; [apply Z.div_pos; lia | apply Z.div_lt_upper_bound; nia]. }
    destruct (Z.ltb_spec (Z.of_nat i mod w) w); [ | lia].
    destruct (Z.ltb_spec (Z.of_nat i / w) h); [ | lia].
    cbn. f_equal. now apply Hf.
  - assert (Hn : forall x : Q,
               replicate (Z.to_nat w * Z.to_nat h) x !! i = None)
      by (intros x; apply lookup_replicate_None; lia).
    now rewrite !Hn.
Qed.

(** Along a line of a constant image, a kernel whose centre is one of its
    taps and that is not longer than the line reads the constant at every
    tap. *)
Lemma convolveX_constant w h (k : Kernel1D) (c : Q) col row :
  kernel_reads_image k -> Z.of_nat (length (kernel k)) <= w ->
  0 <= col < w -> 0 <= row < h ->
  convolveX k (constant_image w h c) col row
  = dot (kernel k) (left k) (fun _ => c).
Proof.
  intros [Hk Hmode] Hlen Hcol Hrow. unfold convolveX. apply dot_ext.
  intros j Hj. cbn [width constant_image].
  destruct (border_in_line (borderTreatment k) w (col - j) Hmode)
    as (c' & -> & Hc'); [lia | lia | ].
  now apply get_constant.
Qed.

Lemma convolveY_constant w h (k : Kernel1D) (c : Q) col row :
  kernel_reads_image k -> Z.of_nat (length (kernel k)) <= h ->
  0 <= col < w -> 0 <= row < h ->
  convolveY k (constant_image w h c) col row
  = dot (kernel k) (left k) (fun _ => c).
Proof.
  intros [Hk Hmode] Hlen Hcol Hrow. unfold convolveY. apply dot_ext.
  intros j Hj. cbn [height constant_image].
  destruct (border_in_line (borderTreatment k) h (row - j) Hmode)
    as (r' & -> & Hr'); [lia | lia | ].
  now apply get_constant.
Qed.

(** With well-formed kernels that fit the image, the reference convolution
    takes every constant image to zero as soon as the taps of the kernel
    along one of the axes sum to zero. *)
Lemma convolveImage_constant w h (kx ky : Kernel1D) (c : Q) :
  kernel_reads_image kx -> kernel_reads_image ky ->
  Z.of_nat (length (kernel kx)) <= w ->
  Z.of_nat (length (kernel ky)) <= h ->
  (tap_sum (kernel kx) == 0 \/ tap_sum (kernel ky) == 0)%Q ->
  annihilates_constant convolveImage w h c kx ky.
Proof.
  intros Hkx Hky Hx Hy Hsum. unfold annihilates_constant, convolveImage.
  cbn [width height constant_image].
  destruct (Z.ltb_spec w (Z.of_nat (length (kernel kx)))); [lia | ].
  destruct (Z.ltb_spec h (Z.of_nat (length (kernel ky)))); [lia | ].
  cbn [orb]. f_equal.
  rewrite (write_image_constant w h (constant_image w h c) c
             (dot (kernel kx) (left kx) (fun _ => c)))
    by (try reflexivity; intros; now apply convolveX_constant).
  apply (write_image_constant w h (constant_image w h c) r_zero r_zero);
    [reflexivity | reflexivity | ].
  intros col row Hcol Hrow. rewrite convolveY_constant by assumption.
  destruct Hsum as [Hsum | Hsum].
  - rewrite (dot_constant_zero (kernel kx)) by exact Hsum.
    apply dot_zero. reflexivity.
  - now apply dot_constant_zero.
Qed.

End ReferenceFacts.

(** * The claims on the reference instance *)

Import Reference ReferenceFacts.

(** Away from the border of a 9 x 9 image, the tensor of x^2 + x y is
    (gxx^2 + gxy^2, -gxy (gxx + gyy), gxy^2 + gyy^2) = (5, -2, 1), as for
    the exact derivatives gxx = 2, gxy = 1, gyy = 0, gx3 = gy3 = 0. *)
Example GET_bowl_interior :
  let out := dest (snd (GET (corner 9 9) bowl origin (blank 3))) in
  (component out 4 4 0, component out 4 4 1, component out 4 4 2)
  = (5, - (2), 1)%Q.
Proof. vm_compute. reflexivity. Qed.

(** A kernel of three taps does not fit a line of two pixels. *)
Example GET_kernel_longer_than_line :
  fst (GET (corner 2 5) bowl origin (blank 3))
  = Raised (Propagated KernelLongerThanLine).
Proof. vm_compute. reflexivity. Qed.

(** The tensor of the 5 x 5 image [bowl] at the pixel (2, 2). *)
Lemma C1_tensor_formula_witness :
  keeps_extent convolveImage /\
  numBands (blank 3) = 3%nat /\
  exists F s1,
    derivativeCascade convolveImage (srcIterRange origin (corner 5 5) bowl)
      5 5 grad smooth {| dest := blank 3; calls := [] |} = (Done F, s1) /\
    exists vgx vgy vgxx vgxy vgyy vgx3 vgy3 : Q,
      pixel (gx F) 2 2 = Some vgx /\
      pixel (gy F) 2 2 = Some vgy /\
      pixel (gxx F) 2 2 = Some vgxx /\
      pixel (gxy F) 2 2 = Some vgxy /\
      pixel (gyy F) 2 2 = Some vgyy /\
      pixel (gx3 F) 2 2 = Some vgx3 /\
      pixel (gy3 F) 2 2 = Some vgy3 /\
      let r := GET (corner 5 5) bowl origin (blank 3) in
      fst r = Done tt /\
      component (dest (snd r)) 2 2 0
      = (vgxx * vgxx + vgxy * vgxy - vgx * vgx3)%tmp /\
      component (dest (snd r)) 2 2 1
      = (- vgxy * (vgxx + vgyy) + r_half * (vgx * vgy3 + vgy * vgx3))%tmp /\
      component (dest (snd r)) 2 2 2
      = (vgxy * vgxy + vgyy * vgyy - vgy * vgy3)%tmp.
Proof.
  split; [exact convolveImage_keeps_extent | ]. split; [reflexivity | ].
  eexists. eexists. split; [vm_compute; reflexivity | ].
  unfold GET.
  refine (C1_tensor_formula convolveImage origin (corner 5 5) bowl origin
            (blank 3) grad smooth _ _ convolveImage_keeps_extent eq_refl
            _ 2%nat 2%nat _ _).
  - vm_compute; reflexivity.
  - reflexivity.
  - reflexivity.
Defined.

(** The cascade on the 5 x 5 image [bowl]: the calls in order. *)
Lemma C2_cascade_order_witness :
  let r := GET (corner 5 5) bowl origin (blank 3) in
  fst r = Done tt /\
  calls (snd r) = cascade_calls grad smooth /\
  exists F,
    spec_cascade convolveImage (srcIterRange origin (corner 5 5) bowl) 5 5
      grad smooth F.
Proof.
  unfold GET. cbv zeta.
  assert (Hr : fst (gradientEnergyTensor convolveImage origin (corner 5 5)
                      bowl origin (blank 3) grad smooth) = Done tt)
    by (vm_compute; reflexivity).
  split; [exact Hr | ].
  exact (proj2 (proj2 (C2_cascade_order convolveImage
                         (srcIterRange origin (corner 5 5) bowl) 5 5
                         grad smooth))
           origin (corner 5 5) bowl origin (blank 3)
           eq_refl eq_refl eq_refl Hr).
Defined.

(** A destination of 2 bands is refused at once. *)
Lemma C3_band_count_precondition_witness :
  numBands (blank 2) <> 3%nat /\
  GET (corner 5 5) bowl origin (blank 2)
  = (Raised (PreconditionFailure bands_message),
     {| dest := blank 2; calls := [] |}).
Proof.
  assert (Hb : numBands (blank 2) <> 3%nat) by (cbn; lia).
  unfold GET. split; [exact Hb | ].
  exact (proj2 (C3_band_count_precondition convolveImage origin (corner 5 5)
                  bowl origin (blank 2) grad smooth) Hb).
Defined.

(** A region of 4 x 3 pixels of [bowl], written at (7, 1) of a
    destination that held 9 everywhere: the fields have 4 x 3 pixels, the
    call returns, the pixels of the window hold their tensors and the
    others still hold 9. *)
Lemma C4_dimensions_witness :
  let d9 := {| numBands := 3; component := fun _ _ _ => 9%Q |} in
  let dul := {| pos_x := 7; pos_y := 1 |} in
  let r := gradientEnergyTensor convolveImage origin (corner 4 3) bowl dul d9
             grad smooth in
  keeps_extent convolveImage /\
  numBands d9 = 3%nat /\
  exists F s1,
    derivativeCascade convolveImage (srcIterRange origin (corner 4 3) bowl)
      (4 - 0) (3 - 0) grad smooth {| dest := d9; calls := [] |}
    = (Done F, s1) /\
    fields_have_extent (4 - 0) (3 - 0) F /\
    fst r = Done tt /\
    (forall px py idx, ~ in_window dul (4 - 0) (3 - 0) px py ->
       component (dest (snd r)) px py idx = 9%Q) /\
    (forall col row idx,
       (col < 4)%nat -> (row < 3)%nat -> (idx < 3)%nat ->
       exists v,
         samples F (row * 4 + col) = Some v /\
         component (dest (snd r)) (7 + Z.of_nat col) (1 + Z.of_nat row) idx
         = tensor v idx).
Proof.
  cbv zeta.
  split; [exact convolveImage_keeps_extent | ]. split; [reflexivity | ].
  destruct (derivativeCascade convolveImage
              (srcIterRange origin (corner 4 3) bowl) (4 - 0) (3 - 0)
              grad smooth
              {| dest := {| numBands := 3; component := fun _ _ _ => 9%Q |};
                 calls := [] |}) as [[F|e] s1] eqn:Hcas;
    [ | vm_compute in Hcas; discriminate Hcas].
  destruct (C4_dimensions convolveImage origin (corner 4 3) bowl
              {| pos_x := 7; pos_y := 1 |}
              {| numBands := 3; component := fun _ _ _ => 9%Q |}
              grad smooth convolveImage_keeps_extent)
    as (_ & _ & Hfields & Hframe & Hwritten).
  destruct (Hwritten eq_refl F s1 Hcas) as [Hdone Hval].
  exists F, s1. split; [reflexivity | ].
  split; [exact (Hfields _ F s1 Hcas) | ]. split; [exact Hdone | ].
  split; [exact Hframe | exact Hval].
Defined.

(** The zero image of 4 x 3 pixels. *)
Lemma C5_zero_input_witness :
  numBands (blank 3) = 3%nat /\
  (forall i, in_window origin 4 3 (pos_x i) (pos_y i) -> flat 0 i = r_zero) /\
  annihilates_constant convolveImage 4 3 r_zero grad smooth /\
  annihilates_constant convolveImage 4 3 r_zero smooth grad /\
  let r := GET (corner 4 3) (flat 0) {| pos_x := 7; pos_y := 1 |} (blank 3) in
  fst r = Done tt /\
  forall px py idx,
    in_window {| pos_x := 7; pos_y := 1 |} 4 3 px py -> (idx < 3)%nat ->
    component (dest (snd r)) px py idx = 0%Q.
Proof.
  assert (Hz1 : annihilates_constant convolveImage 4 3 r_zero grad smooth)
    by (apply convolveImage_zero; cbn; lia).
  assert (Hz2 : annihilates_constant convolveImage 4 3 r_zero smooth grad)
    by (apply convolveImage_zero; cbn; lia).
  unfold GET. split; [reflexivity | ]. split; [reflexivity | ].
  split; [exact Hz1 | ]. split; [exact Hz2 | ].
  exact (proj2 (C5_zero_input convolveImage origin (corner 4 3) (flat 0)
                  {| pos_x := 7; pos_y := 1 |} (blank 3) grad smooth
                  eq_refl (fun _ _ => eq_refl) Hz1 Hz2)).
Defined.

(** The constant image of value 5 and 4 x 3 pixels; the kernel [grad] has
    taps that sum to zero and reflects at the border. *)
Lemma C6_constant_input_witness :
  numBands (blank 3) = 3%nat /\
  (forall i, in_window origin 4 3 (pos_x i) (pos_y i) -> flat 5 i = 5%Q) /\
  (forall c', c' = 5%Q \/ c' = r_zero ->
     annihilates_constant convolveImage 4 3 c' grad smooth /\
     annihilates_constant convolveImage 4 3 c' smooth grad) /\
  let r := GET (corner 4 3) (flat 5) origin (blank 3) in
  fst r = Done tt /\
  forall px py idx, in_window origin 4 3 px py -> (idx < 3)%nat ->
    component (dest (snd r)) px py idx = 0%Q.
Proof.
  assert (Hann : forall c', c' = 5%Q \/ c' = r_zero ->
            annihilates_constant convolveImage 4 3 c' grad smooth /\
            annihilates_constant convolveImage 4 3 c' smooth grad).
  { assert (Hgrad : kernel_reads_image grad) by (split; cbn; [lia | easy]).
    assert (Hsmooth : kernel_reads_image smooth)
      by (split; cbn; [lia | easy]).
    intros c' _. split; apply convolveImage_constant;
      first [ assumption | cbn; lia | left; reflexivity | right; reflexivity ]. }
  unfold GET. split; [reflexivity | ]. split; [reflexivity | ].
  split; [exact Hann | ].
  exact (proj2 (C6_constant_input convolveImage origin (corner 4 3) (flat 5)
                  origin (blank 3) grad smooth 5%Q
                  eq_refl (fun _ _ => eq_refl) Hann)).
Defined.

(** Two destinations of 3 bands with different contents. *)
Lemma C7_pure_and_idempotent_witness :
  let d2 := {| numBands := 3; component := fun _ _ _ => 9%Q |} in
  let r1 := GET (corner 5 5) bowl origin (blank 3) in
  let r2 := GET (corner 5 5) bowl origin d2 in
  numBands (blank 3) = numBands d2 /\
  fst r1 = fst r2 /\ calls (snd r1) = calls (snd r2) /\
  same_image (dest (snd (GET (corner 5 5) bowl origin (dest (snd r1)))))
    (dest (snd r1)).
Proof.
  unfold GET. cbv zeta.
  destruct (C7_pure_and_idempotent convolveImage)
    as (_ & Hpure & _ & Hagain).
  destruct (Hpure origin (corner 5 5) bowl origin grad smooth (blank 3)
              {| numBands := 3; component := fun _ _ _ => 9%Q |}
              eq_refl) as (Hr & Hc & _).
  destruct (Hagain origin (corner 5 5) bowl origin grad smooth (blank 3))
    as (_ & _ & Hsame).
  split; [reflexivity | ]. split; [exact Hr | ]. split; [exact Hc | ].
  exact Hsame.
Defined.

(** The assembly of zero fields of 2 x 2 pixels. *)
Lemma C8_assembly_total_witness :
  numBands (blank 3) = 3%nat /\
  fields_have_extent 2 2 (zero_fields (T := Q) 2 2) /\
  exists s',
    tensorAssembly (Kernel1D := Kernel1D)
      (CollaboratorError := ConvolutionError)
      (zero_fields 2 2) 2 2 origin {| dest := blank 3; calls := [] |}
    = (Done tt, s').
Proof.
  assert (Hext : fields_have_extent 2 2 (zero_fields (T := Q) 2 2))
    by (repeat split).
  split; [reflexivity | ]. split; [exact Hext | ].
  destruct (C8_assembly_total (Kernel1D := Kernel1D)
              (CollaboratorError := ConvolutionError)
              (zero_fields 2 2) 2 2 origin
              {| dest := blank 3; calls := [] |} eq_refl Hext)
    as (s' & Hasm & _).
  now exists s'.
Defined.

(** An empty region, kernels of three taps: the reference convolution
    refuses a kernel longer than the line, the error is passed on, and the
    call has not returned normally. *)
Lemma C10_empty_region_counterexample :
  ~ empty_region_returns convolveImage origin (corner 0 0) bowl origin
      (blank 3) grad smooth.
Proof.
  unfold empty_region_returns. intros Hclaim.
  destruct (Hclaim (or_introl (Z.le_refl 0)) eq_refl) as [Hr _].
  vm_compute in Hr. discriminate Hr.
Qed.

(** The same empty region: the destination is as it was. *)
Lemma C10_empty_region_witness :
  (pos_x (corner 0 0) <= pos_x origin \/ pos_y (corner 0 0) <= pos_y origin) /\
  numBands (blank 3) = 3%nat /\
  let r := GET (corner 0 0) bowl origin (blank 3) in
  dest (snd r) = blank 3 /\
  fst r = Raised (Propagated KernelLongerThanLine).
Proof.
  assert (He : pos_x (corner 0 0) <= pos_x origin \/
               pos_y (corner 0 0) <= pos_y origin) by (left; reflexivity).
  unfold GET. split; [exact He | ]. split; [reflexivity | ].
  destruct (C10_empty_region convolveImage origin (corner 0 0) bowl origin
              (blank 3) grad smooth He eq_refl) as (Hd & _ & _).
  split; [exact Hd | ]. vm_compute. reflexivity.
Defined.

(** * Further properties of [gradientEnergyTensor] *)

Section MoreProperties.

Context {T : Type} `{RealPromote T} {Kernel1D CollaboratorError : Type}.

Variable convolveImage :
  BasicImage T -> BasicImage T -> Kernel1D -> Kernel1D ->
  CollaboratorError + BasicImage T.

Local Abbreviation M := (@M T Kernel1D CollaboratorError).
Local Abbreviation World := (World T Kernel1D).

(** ** The monad laws that the loops need *)

Lemma bind_ext {A B} (m : M A) (k k' : A -> M B) s :
  (forall a s', k a s' = k' a s') -> bind m k s = bind m k' s.
Proof. intros Hk. unfold bind. destruct (m s) as [[a|e] s1]; auto. Qed.

Lemma bind_assoc {A B C} (m : M A) (k : A -> M B) (k' : B -> M C) s :
  bind (bind m k) k' s = bind m (fun a => bind (k a) k') s.
Proof. unfold bind. now destruct (m s) as [[a|e] s1]. Qed.

(** ** The call that fails *)

(** When the cascade raises, the error is the one that the last call made
    returned; that call is a convolution at its place in the fixed order,
    and no pixel has been written. *)
Lemma derivativeCascade_failing img w h dk sk (s : World) e s' :
  derivativeCascade convolveImage img w h dk sk s = (Raised e, s') ->
  exists pre post src kx ky c,
    e = Propagated c /\
    cascade_calls dk sk = pre ++ CallConvolveImage kx ky :: post /\
    calls s' = calls s ++ pre ++ [CallConvolveImage kx ky] /\
    convolveImage src (BasicImage_new w h) kx ky = inl c /\
    dest s' = dest s.
Proof.
  unfold derivativeCascade. cbv zeta. intros Hrun.
  rewrite bind_call_convolveImage in Hrun.
  match type of Hrun with
  | match convolveImage ?src _ _ _ with _ => _ end = _ =>
      destruct (convolveImage src (BasicImage_new w h) dk sk)
        as [c|v1] eqn:E1;
        [ inversion Hrun; subst; clear Hrun;
          exists [], (tail (cascade_calls dk sk)),
            src, dk, sk, c;
          split; [reflexivity | ]; split; [reflexivity | ];
          split; [cbn; rewrite <- ?app_assoc; reflexivity | ];
          split; [exact E1 | reflexivity]
        | ]
  end.
  rewrite bind_call_convolveImage in Hrun.
  match type of Hrun with
  | match convolveImage ?src _ _ _ with _ => _ end = _ =>
      destruct (convolveImage src (BasicImage_new w h) sk dk)
        as [c|v2] eqn:E2;
        [ inversion Hrun; subst; clear Hrun;
          exists (take 1 (cascade_calls dk sk)), (drop 2 (cascade_calls dk sk)),
            src, sk, dk, c;
          split; [reflexivity | ]; split; [reflexivity | ];
          split; [cbn; rewrite <- ?app_assoc; reflexivity | ];
          split; [exact E2 | reflexivity]
        | ]
  end.
  rewrite bind_call_convolveImage in Hrun.
  match type of Hrun with
  | match convolveImage ?src _ _ _ with _ => _ end = _ =>
      destruct (convolveImage src (BasicImage_new w h) dk sk)
        as [c|v3] eqn:E3;
        [ inversion Hrun; subst; clear Hrun;
          exists (take 2 (cascade_calls dk sk)), (drop 3 (cascade_calls dk sk)),
            src, dk, sk, c;
          split; [reflexivity | ]; split; [reflexivity | ];
          split; [cbn; rewrite <- ?app_assoc; reflexivity | ];
          split; [exact E3 | reflexivity]
        | ]
  end.
  rewrite bind_call_convolveImage in Hrun.
  match type of Hrun with
  | match convolveImage ?src _ _ _ with _ => _ end = _ =>
      destruct (convolveImage src (BasicImage_new w h) sk dk)
        as [c|v4] eqn:E4;
        [ inversion Hrun; subst; clear Hrun;
          exists (take 3 (cascade_calls dk sk)), (drop 4 (cascade_calls dk sk)),
            src, sk, dk, c;
          split; [reflexivity | ]; split; [reflexivity | ];
          split; [cbn; rewrite <- ?app_assoc; reflexivity | ];
          split; [exact E4 | reflexivity]
        | ]
  end.
  rewrite bind_call_convolveImage in Hrun.
  match type of Hrun with
  | match convolveImage ?src _ _ _ with _ => _ end = _ =>
      destruct (convolveImage src (BasicImage_new w h) sk dk)
        as [c|v5] eqn:E5;
        [ inversion Hrun; subst; clear Hrun;
          exists (take 4 (cascade_calls dk sk)), (drop 5 (cascade_calls dk sk)),
            src, sk, dk, c;
          split; [reflexivity | ]; split; [reflexivity | ];
          split; [cbn; rewrite <- ?app_assoc; reflexivity | ];
          split; [exact E5 | reflexivity]
        | ]
  end.
  rewrite bind_call_combineTwoImages in Hrun.
  rewrite bind_call_convolveImage in Hrun.
  match type of Hrun with
  | match convolveImage ?src _ _ _ with _ => _ end = _ =>
      destruct (convolveImage src (BasicImage_new w h) dk sk)
        as [c|v6] eqn:E6;
        [ inversion Hrun; subst; clear Hrun;
          exists (take 6 (cascade_calls dk sk)), (drop 7 (cascade_calls dk sk)),
            src, dk, sk, c;
          split; [reflexivity | ]; split; [reflexivity | ];
          split; [cbn; rewrite <- ?app_assoc; reflexivity | ];
          split; [exact E6 | reflexivity]
        | ]
  end.
  rewrite bind_call_convolveImage in Hrun.
  match type of Hrun with
  | match convolveImage ?src _ _ _ with _ => _ end = _ =>
      destruct (convolveImage src (BasicImage_new w h) sk dk)
        as [c|v7] eqn:E7;
        [ inversion Hrun; subst; clear Hrun;
          exists (take 7 (cascade_calls dk sk)), [],
            src, sk, dk, c;
          split; [reflexivity | ]; split; [reflexivity | ];
          split; [cbn; rewrite <- ?app_assoc; reflexivity | ];
          split; [exact E7 | reflexivity]
        | ]
  end.
  discriminate.
Qed.

(** The outcome of the function, when the destination has 3 bands, is
    that of the cascade followed by the assembly. *)
Lemma gradientEnergyTensor_cases ul lr (src : SrcAccessor T) dul
    (d : DestAccessor T) dk sk :
  numBands d = 3%nat ->
  let w := pos_x lr - pos_x ul in
  let h := pos_y lr - pos_y ul in
  let r := gradientEnergyTensor convolveImage ul lr src dul d dk sk in
  (exists F s1,
     derivativeCascade convolveImage (srcIterRange ul lr src) w h dk sk
       {| dest := d; calls := [] |} = (Done F, s1) /\
     r = tensorAssembly F w h dul s1) \/
  (exists e s1,
     derivativeCascade convolveImage (srcIterRange ul lr src) w h dk sk
       {| dest := d; calls := [] |} = (Raised e, s1) /\
     r = (Raised e, s1)).
Proof.
  intros Hb w h r. subst r. rewrite gradientEnergyTensor_bands by exact Hb.
  fold w h. unfold bind.
  destruct (derivativeCascade _ _ _ _ _ _ _) as [[F|e] s1].
  - left. now exists F, s1.
  - right. now exists e, s1.
Qed.

(** The outer loop over [n + m] rows is the loop over the first [n] rows
    followed by the loop over the other [m] rows. *)
Lemma image_loop_app (F : Fields T) w n m :
  forall d off (s : World),
    image_loop (CollaboratorError := CollaboratorError) F w (n + m) d off s
    = bind (image_loop F w n d off)
        (fun off' =>
           image_loop F w m
             {| pos_x := pos_x d; pos_y := pos_y d + Z.of_nat n |} off')
        s.
Proof.
  induction n as [|n IH]; intros d off s.
  - cbn [image_loop Nat.add]. unfold bind, ret. destruct d as [dx dy]. cbn.
    now rewrite Z.add_0_r.
  - cbn [image_loop Nat.add]. rewrite bind_assoc. apply bind_ext.
    intros off' s'. rewrite IH. apply bind_ext. intros off'' s''.
    cbn [inc_y pos_x pos_y].
    now replace (pos_y d + 1 + Z.of_nat n) with (pos_y d + Z.of_nat (S n))
      by lia.
Qed.

(** * Further properties *)

(** X1: when the convolution keeps extents, a call of
    [gradientEnergyTensor] that fails has left the destination exactly as it
    was, and the failure is either the precondition on the number of bands
    or an error of [convolveImage]: the iterators of the assembly loop never
    leave the temporary images. *)
Theorem X1_failure_leaves_destination ul lr (src : SrcAccessor T) dul
    (d : DestAccessor T) dk sk e :
  keeps_extent convolveImage ->
  let r := gradientEnergyTensor convolveImage ul lr src dul d dk sk in
  fst r = Raised e ->
  dest (snd r) = d /\
  ((e = PreconditionFailure bands_message /\ numBands d <> 3%nat) \/
   (exists c, e = Propagated c /\ numBands d = 3%nat)).
Proof.
  intros Hk r Hr. subst r.
  destruct (decide (numBands d = 3%nat)) as [Hb|Hb].
  - destruct (gradientEnergyTensor_cases ul lr src dul d dk sk Hb)
      as [(F & s1 & Hcas & Hrun) | (e' & s1 & Hcas & Hrun)].
    + destruct (gradientEnergyTensor_Done convolveImage ul lr src dul d dk sk
                  F s1 Hk Hb Hcas) as (s' & Hdone & _).
      rewrite Hdone in Hr. discriminate.
    + rewrite Hrun in Hr |- *. cbn in Hr. injection Hr as ->.
      destruct (derivativeCascade_failing _ _ _ _ _ _ _ _ Hcas)
        as (_ & _ & _ & _ & _ & c & -> & _ & _ & _ & Hd).
      split; [exact Hd | ]. right. now exists c.
  - rewrite gradientEnergyTensor_not_bands in Hr |- * by exact Hb.
    injection Hr as <-. split; [reflexivity | now left].
Qed.


(** X3: the values written do not depend on where the window lies in the
    destination: two successful calls that differ in the destination and in
    its upper left corner write the same value at the same offset from the
    corner, and the one returns normally when the other does. *)
Theorem X3_destination_position ul lr (src : SrcAccessor T) dul1 dul2
    (d1 d2 : DestAccessor T) dk sk :
  keeps_extent convolveImage ->
  numBands d1 = 3%nat -> numBands d2 = 3%nat ->
  let r1 := gradientEnergyTensor convolveImage ul lr src dul1 d1 dk sk in
  let r2 := gradientEnergyTensor convolveImage ul lr src dul2 d2 dk sk in
  fst r1 = Done tt ->
  fst r2 = Done tt /\
  forall col row idx : nat,
    Z.of_nat col < pos_x lr - pos_x ul ->
    Z.of_nat row < pos_y lr - pos_y ul -> (idx < 3)%nat ->
    component (dest (snd r1)) (pos_x dul1 + Z.of_nat col)
              (pos_y dul1 + Z.of_nat row) idx
    = component (dest (snd r2)) (pos_x dul2 + Z.of_nat col)
                (pos_y dul2 + Z.of_nat row) idx.
Proof.
  intros Hk Hb1 Hb2 r1 r2 Hr1. subst r1 r2.
  destruct (gradientEnergyTensor_cases ul lr src dul1 d1 dk sk
              Hb1) as [(F & s1 & Hcas1 & _) | (e' & s1 & _ & Hrun)];
    [ | rewrite Hrun in Hr1; discriminate].
  pose proof (derivativeCascade_Done _ _ _ _ _ _ _ _ _ Hcas1) as [Hspec _].
  pose proof (spec_cascade_run _ _ _ _ _ _ {| dest := d2; calls := [] |} _
                Hspec) as Hcas2.
  destruct (gradientEnergyTensor_Done convolveImage ul lr src dul1 d1 dk sk
              F s1 Hk Hb1 Hcas1) as (s1' & Hrun1 & _ & _ & _ & Hval1 & _).
  destruct (gradientEnergyTensor_Done convolveImage ul lr src dul2 d2 dk sk
              F _ Hk Hb2 Hcas2) as (s2' & Hrun2 & _ & _ & _ & Hval2 & _).
  rewrite Hrun1, Hrun2. cbn [fst snd]. split; [reflexivity | ].
  intros col row idx Hcol Hrow Hidx.
  destruct (Hval1 col row idx ltac:(lia) ltac:(lia) Hidx) as (v1 & Hv1 & ->).
  destruct (Hval2 col row idx ltac:(lia) ltac:(lia) Hidx) as (v2 & Hv2 & ->).
  congruence.
Qed.

(** Two calls on sources that neither call writes, with windows in the
    destination that do not overlap, can be made in either order. *)
Lemma disjoint_windows_commute
    ulA lrA (srcA : SrcAccessor T) dulA dkA skA
    ulB lrB (srcB : SrcAccessor T) dulB dkB skB (d : DestAccessor T) :
  let a := fun d => gradientEnergyTensor convolveImage ulA lrA srcA dulA d
                      dkA skA in
  let b := fun d => gradientEnergyTensor convolveImage ulB lrB srcB dulB d
                      dkB skB in
  (forall px py,
     in_window dulA (pos_x lrA - pos_x ulA) (pos_y lrA - pos_y ulA) px py ->
     in_window dulB (pos_x lrB - pos_x ulB) (pos_y lrB - pos_y ulB) px py ->
     False) ->
  fst (a (dest (snd (b d)))) = fst (a d) /\
  fst (b (dest (snd (a d)))) = fst (b d) /\
  same_image (dest (snd (a (dest (snd (b d))))))
             (dest (snd (b (dest (snd (a d)))))).
Proof.
  intros a b Hdisj.
  set (dA := dest (snd (a d))). set (dB := dest (snd (b d))).
  assert (HnA : numBands dA = numBands d).
  { destruct (oblivious_gradientEnergyTensor convolveImage ulA lrA srcA dulA
                dkA skA d d eq_refl) as (_ & Hn & _). exact Hn. }
  assert (HnB : numBands dB = numBands d).
  { destruct (oblivious_gradientEnergyTensor convolveImage ulB lrB srcB dulB
                dkB skB d d eq_refl) as (_ & Hn & _). exact Hn. }
  destruct (oblivious_gradientEnergyTensor convolveImage ulA lrA srcA dulA
              dkA skA d dB (eq_sym HnB)) as (HrA & _ & _ & HpA).
  destruct (oblivious_gradientEnergyTensor convolveImage ulB lrB srcB dulB
              dkB skB d dA (eq_sym HnA)) as (HrB & _ & _ & HpB).
  destruct (oblivious_gradientEnergyTensor convolveImage ulA lrA srcA dulA
              dkA skA dB dB eq_refl) as (_ & HnAB & _).
  destruct (oblivious_gradientEnergyTensor convolveImage ulB lrB srcB dulB
              dkB skB dA dA eq_refl) as (_ & HnBA & _).
  fold (a d) (a dB) in HrA, HpA, HnAB. fold (b d) (b dA) in HrB, HpB, HnBA.
  fold dA in HpA, HpB. fold dB in HpA, HpB.
  split; [now rewrite HrA | ]. split; [now rewrite HrB | ].
  split; [congruence | ].
  intros px py idx.
  pose proof (gradientEnergyTensor_frame convolveImage ulA lrA srcA dulA d
                dkA skA px py idx) as FAd.
  pose proof (gradientEnergyTensor_frame convolveImage ulA lrA srcA dulA dB
                dkA skA px py idx) as FAdB.
  pose proof (gradientEnergyTensor_frame convolveImage ulB lrB srcB dulB d
                dkB skB px py idx) as FBd.
  pose proof (gradientEnergyTensor_frame convolveImage ulB lrB srcB dulB dA
                dkB skB px py idx) as FBdA.
  fold (a d) in FAd. fold (a dB) in FAdB. fold (b d) in FBd.
  fold (b dA) in FBdA. fold dA in FAd, FBdA. fold dB in FBd, FAdB.
  destruct (decide (pos_x dulA <= px < pos_x dulA + (pos_x lrA - pos_x ulA) /\
                    pos_y dulA <= py < pos_y dulA + (pos_y lrA - pos_y ulA)))
    as [HinA | HoutA].
  - assert (HoutB : ~ in_window dulB (pos_x lrB - pos_x ulB)
                      (pos_y lrB - pos_y ulB) px py)
      by (intros HinB; exact (Hdisj px py HinA HinB)).
    rewrite (FBdA HoutB).
    destruct (HpA px py idx) as [He | [Hu Hu']]; [now symmetry | ].
    rewrite Hu', Hu. exact (FBd HoutB).
  - rewrite (FAdB HoutA).
    destruct (HpB px py idx) as [He | [Hu Hu']]; [exact He | ].
    rewrite Hu', Hu. symmetry. exact (FAd HoutA).
Qed.

(** A call with another source that holds the same pixels in the region
    is the same call. *)
Lemma gradientEnergyTensor_src_ext ul lr (src1 src2 : SrcAccessor T) dul
    (d : DestAccessor T) dk sk :
  (forall i,
     in_window ul (pos_x lr - pos_x ul) (pos_y lr - pos_y ul)
       (pos_x i) (pos_y i) -> src1 i = src2 i) ->
  gradientEnergyTensor convolveImage ul lr src1 dul d dk sk
  = gradientEnergyTensor convolveImage ul lr src2 dul d dk sk.
Proof.
  intros Hsrc. unfold gradientEnergyTensor.
  now rewrite (srcIterRange_ext ul lr src1 src2 Hsrc).
Qed.

(** X5: two calls whose windows in the destination do not overlap, and
    whose source regions hold no pixel that the other call writes, can be
    made in either order: each has the outcome it has when made alone, and
    the two orders leave the same destination.  The sources may be views of
    the destination image: [srcA d] and [srcB d] are what the source
    accessors read when the destination is [d]. *)
Theorem X5_disjoint_windows_commute
    ulA lrA (srcA : DestAccessor T -> SrcAccessor T) dulA dkA skA
    ulB lrB (srcB : DestAccessor T -> SrcAccessor T) dulB dkB skB
    (d : DestAccessor T) :
  let wA := pos_x lrA - pos_x ulA in
  let hA := pos_y lrA - pos_y ulA in
  let wB := pos_x lrB - pos_x ulB in
  let hB := pos_y lrB - pos_y ulB in
  let a := fun d => gradientEnergyTensor convolveImage ulA lrA (srcA d) dulA d
                      dkA skA in
  let b := fun d => gradientEnergyTensor convolveImage ulB lrB (srcB d) dulB d
                      dkB skB in
  (forall px py,
     in_window dulA wA hA px py -> in_window dulB wB hB px py -> False) ->
  (forall d1 d2,
     (forall px py idx, ~ in_window dulB wB hB px py ->
        component d1 px py idx = component d2 px py idx) ->
     forall i, in_window ulA wA hA (pos_x i) (pos_y i) ->
       srcA d1 i = srcA d2 i) ->
  (forall d1 d2,
     (forall px py idx, ~ in_window dulA wA hA px py ->
        component d1 px py idx = component d2 px py idx) ->
     forall i, in_window ulB wB hB (pos_x i) (pos_y i) ->
       srcB d1 i = srcB d2 i) ->
  fst (a (dest (snd (b d)))) = fst (a d) /\
  fst (b (dest (snd (a d)))) = fst (b d) /\
  same_image (dest (snd (a (dest (snd (b d))))))
             (dest (snd (b (dest (snd (a d)))))).
Proof.
  intros wA hA wB hB a b Hdisj HsrcA HsrcB.
  assert (Ha : a (dest (snd (b d)))
               = gradientEnergyTensor convolveImage ulA lrA (srcA d) dulA
                   (dest (snd (b d))) dkA skA).
  { apply gradientEnergyTensor_src_ext. apply HsrcA.
    intros px py idx Hout. now apply gradientEnergyTensor_frame. }
  assert (Hb : b (dest (snd (a d)))
               = gradientEnergyTensor convolveImage ulB lrB (srcB d) dulB
                   (dest (snd (a d))) dkB skB).
  { apply gradientEnergyTensor_src_ext. apply HsrcB.
    intros px py idx Hout. now apply gradientEnergyTensor_frame. }
  rewrite Ha, Hb.
  exact (disjoint_windows_commute ulA lrA (srcA d) dulA dkA skA
           ulB lrB (srcB d) dulB dkB skB d Hdisj).
Qed.

(** X6: the assembly of a block of [n + m] rows is the assembly of its
    first [n] rows followed by the assembly of the other [m] rows, started
    at the destination row and at the offset in the fields where the first
    stopped; outcome and destination are the same. *)
Theorem X6_assembly_by_row_blocks (F : Fields T) w (n m : nat) d off
    (s : World) :
  image_loop (CollaboratorError := CollaboratorError) F w (n + m) d off s
  = match image_loop F w n d off s with
    | (Done off', s') =>
        image_loop F w m
          {| pos_x := pos_x d; pos_y := pos_y d + Z.of_nat n |} off' s'
    | (Raised e, s') => (Raised e, s')
    end.
Proof. rewrite image_loop_app. reflexivity. Qed.

(** X7: when the convolution keeps extents, [gradientEnergyTensor]
    returns normally exactly when the destination has 3 bands and each of
    the seven convolutions of the cascade returns an image. *)
Theorem X7_returns_iff ul lr (src : SrcAccessor T) dul (d : DestAccessor T)
    dk sk :
  keeps_extent convolveImage ->
  (fst (gradientEnergyTensor convolveImage ul lr src dul d dk sk) = Done tt
   <->
   numBands d = 3%nat /\
   exists F,
     spec_cascade convolveImage (srcIterRange ul lr src)
       (pos_x lr - pos_x ul) (pos_y lr - pos_y ul) dk sk F).
Proof.
  intros Hk. split.
  - intros Hr. destruct (decide (numBands d = 3%nat)) as [Hb|Hb].
    + split; [exact Hb | ].
      destruct (gradientEnergyTensor_cases ul lr src dul d dk sk Hb)
        as [(F & s1 & Hcas & _) | (e' & s1 & _ & Hrun)].
      * exists F. now apply derivativeCascade_Done in Hcas as [Hspec _].
      * rewrite Hrun in Hr. discriminate.
    + rewrite gradientEnergyTensor_not_bands in Hr by exact Hb. discriminate.
  - intros (Hb & F & Hspec).
    pose proof (spec_cascade_run _ _ _ _ _ _ {| dest := d; calls := [] |} _
                  Hspec) as Hcas.
    destruct (gradientEnergyTensor_Done convolveImage ul lr src dul d dk sk
                F _ Hk Hb Hcas) as (s' & Hrun & _).
    now rewrite Hrun.
Qed.

End MoreProperties.

(** * The further properties on the reference instance *)

(** A region of 2 x 5 pixels: the first convolution refuses the kernels. *)
Lemma X1_failure_leaves_destination_witness :
  keeps_extent convolveImage /\
  let r := GET (corner 2 5) bowl origin (blank 3) in
  fst r = Raised (Propagated KernelLongerThanLine) /\
  dest (snd r) = blank 3.
Proof.
  unfold GET. cbv zeta.
  assert (Hr : fst (gradientEnergyTensor convolveImage origin (corner 2 5)
                      bowl origin (blank 3) grad smooth)
               = Raised (Propagated KernelLongerThanLine))
    by (vm_compute; reflexivity).
  split; [exact convolveImage_keeps_extent | ]. split; [exact Hr | ].
  exact (proj1 (X1_failure_leaves_destination convolveImage origin
                  (corner 2 5) bowl origin (blank 3) grad smooth _
                  convolveImage_keeps_extent Hr)).
Defined.


(** The 5 x 5 image [bowl], written at the origin of a blank destination
    and at (7, 1) of a destination that held 9 everywhere. *)
Lemma X3_destination_position_witness :
  let d2 := {| numBands := 3; component := fun _ _ _ => 9%Q |} in
  let dul2 := {| pos_x := 7; pos_y := 1 |} in
  keeps_extent convolveImage /\
  fst (GET (corner 5 5) bowl origin (blank 3)) = Done tt /\
  fst (GET (corner 5 5) bowl dul2 d2) = Done tt /\
  component (dest (snd (GET (corner 5 5) bowl origin (blank 3))))
            (0 + Z.of_nat 2) (0 + Z.of_nat 3) 1
  = component (dest (snd (GET (corner 5 5) bowl dul2 d2)))
              (7 + Z.of_nat 2) (1 + Z.of_nat 3) 1.
Proof.
  unfold GET. cbv zeta.
  assert (Hr : fst (gradientEnergyTensor convolveImage origin (corner 5 5)
                      bowl origin (blank 3) grad smooth) = Done tt)
    by (vm_compute; reflexivity).
  destruct (X3_destination_position convolveImage origin (corner 5 5) bowl
              origin {| pos_x := 7; pos_y := 1 |} (blank 3)
              {| numBands := 3; component := fun _ _ _ => 9%Q |}
              grad smooth convolveImage_keeps_extent eq_refl eq_refl Hr)
    as [Hr2 Hval].
  split; [exact convolveImage_keeps_extent | ]. split; [exact Hr | ].
  split; [exact Hr2 | ].
  exact (Hval 2%nat 3%nat 1%nat eq_refl eq_refl ltac:(lia)).
Defined.

(** Two windows side by side in a destination that holds x y + 1 at
    (x, y): 3 x 3 pixels at the origin, computed from [bowl], and 4 x 3
    pixels at (5, 0), computed from band 0 of the destination itself, 20
    columns to the right. *)
Lemma X5_disjoint_windows_commute_witness :
  let d0 : DestAccessor Q :=
    {| numBands := 3; component := fun px py _ => inject_Z (px * py + 1) |} in
  let srcA : DestAccessor Q -> SrcAccessor Q := fun _ => bowl in
  let srcB : DestAccessor Q -> SrcAccessor Q :=
    fun d i => component d (pos_x i + 20) (pos_y i) 0 in
  let dulB := {| pos_x := 5; pos_y := 0 |} in
  let a := fun d => gradientEnergyTensor convolveImage origin (corner 3 3)
                      (srcA d) origin d grad smooth in
  let b := fun d => gradientEnergyTensor convolveImage origin (corner 4 3)
                      (srcB d) dulB d grad smooth in
  (forall px py,
     in_window origin (3 - 0) (3 - 0) px py ->
     in_window dulB (4 - 0) (3 - 0) px py -> False) /\
  fst (a (dest (snd (b d0)))) = fst (a d0) /\
  fst (b (dest (snd (a d0)))) = fst (b d0) /\
  same_image (dest (snd (a (dest (snd (b d0))))))
             (dest (snd (b (dest (snd (a d0)))))).
Proof.
  cbv zeta.
  assert (Hdisj : forall px py,
             in_window origin (3 - 0) (3 - 0) px py ->
             in_window {| pos_x := 5; pos_y := 0 |} (4 - 0) (3 - 0) px py ->
             False).
  { intros px py [Hx _] [Hx' _]. cbn in Hx, Hx'. lia. }
  split; [exact Hdisj | ].
  apply (X5_disjoint_windows_commute convolveImage
           origin (corner 3 3) (fun _ => bowl) origin grad smooth
           origin (corner 4 3)
           (fun d i => component d (pos_x i + 20) (pos_y i) 0)
           {| pos_x := 5; pos_y := 0 |} grad smooth).
  - exact Hdisj.
  - reflexivity.
  - intros d1 d2 Hagree i [Hx _]. apply Hagree.
    intros [Hx' _]. cbn in Hx, Hx'. lia.
Defined.

(** The 5 x 5 image [bowl]. *)
Lemma X7_returns_iff_witness :
  keeps_extent convolveImage /\
  numBands (blank 3) = 3%nat /\
  exists F,
    spec_cascade convolveImage (srcIterRange origin (corner 5 5) bowl)
      (5 - 0) (5 - 0) grad smooth F.
Proof.
  assert (Hr : fst (gradientEnergyTensor convolveImage origin (corner 5 5)
                      bowl origin (blank 3) grad smooth) = Done tt)
    by (vm_compute; reflexivity).
  split; [exact convolveImage_keeps_extent | ].
  exact (proj1 (X7_returns_iff convolveImage origin (corner 5 5) bowl origin
                  (blank 3) grad smooth convolveImage_keeps_extent) Hr).
Defined.
